(** * George: a string-matching genetic algorithm (src/George.py)

    A shallow embedding of [George.py] and the proofs of its specification.

    Modelling conventions.
    - A Python [str] is a [list ascii]; [ord]/[chr] are [nat_of_ascii] and
      [ascii_of_nat].
    - The object [self] is the record [Evolution]; every method is a
      computation in the monad [M], which threads [self] and a cursor into
      the random source, and which keeps the (possibly half-updated) object
      when an exception is raised, as Python does.
    - NumPy's global random state is the section variable [random_state]:
      the [k]-th draw of the run is [random_state k].  [np.random.choice]
      over [n] items takes the item at index [draw mod n]; the uniform
      sample used by [choice(..., p=...)] is the 53-bit fraction
      [draw mod 2^53 / 2^53].  [np.random.choice] is taken to return the
      chosen element unchanged, and to accept an empty population only when
      no sample is requested.
    - Python floats (fitness scores, the mutation rate) are rationals [Q].
      A stored score is the exact quotient and stands for the double nearest
      to it, [to_double] of it, which is what Python's [/] on two integers
      returns; comparisons are made on the exact values, which for a
      target of fewer than 2^53 characters order and equal as the doubles
      do ([fitness_of_double_lt]).  Where the value
      of the double decides the outcome, in the product [score * 100] of
      [create_mating_pool], the arithmetic is that of IEEE 754 binary64:
      the exact result rounded to 53 significant bits, ties to the even
      significand, with the subnormal grid below 2^-1022 and infinity from
      2^1024 on.  [np.rint] rounds half to even.
    - [tqdm] progress bars and [print] calls have no effect on the object
      and are left out. *)

From Stdlib Require Import Ascii String List ZArith NArith QArith Qround.
From Stdlib Require Import Qabs Qpower Qreduction.
From Stdlib Require Import Lia Lqa Bool Arith PeanoNat.
Import ListNotations.

Module George.

(** ** Data *)

Definition str := list ascii.

Fixpoint str_eqb (a b : str) : bool :=
  match a, b with
  | [], [] => true
  | x :: a', y :: b' => Ascii.eqb x y && str_eqb a' b'
  | _, _ => false
  end.

Inductive exn := ValueError | ZeroDivisionError | IndexError | OverflowError.

Record Evolution := mkEvolution {
  target : str;
  populationsize : Z;
  population : list str;
  fitness : list Q;
  mating_pool : list str;
  generation : Z;
  target_acquired : bool;
  max_fitness : option Q;
  target_population : option str;
  closest_target : option str
}.

Definition set_population (v : list str) (self : Evolution) : Evolution :=
  mkEvolution (target self) (populationsize self) v (fitness self)
    (mating_pool self) (generation self) (target_acquired self)
    (max_fitness self) (target_population self) (closest_target self).

Definition set_fitness (v : list Q) (self : Evolution) : Evolution :=
  mkEvolution (target self) (populationsize self) (population self) v
    (mating_pool self) (generation self) (target_acquired self)
    (max_fitness self) (target_population self) (closest_target self).

Definition set_mating_pool (v : list str) (self : Evolution) : Evolution :=
  mkEvolution (target self) (populationsize self) (population self)
    (fitness self) v (generation self) (target_acquired self)
    (max_fitness self) (target_population self) (closest_target self).

Definition set_generation (v : Z) (self : Evolution) : Evolution :=
  mkEvolution (target self) (populationsize self) (population self)
    (fitness self) (mating_pool self) v (target_acquired self)
    (max_fitness self) (target_population self) (closest_target self).

Definition set_target_acquired (v : bool) (self : Evolution) : Evolution :=
  mkEvolution (target self) (populationsize self) (population self)
    (fitness self) (mating_pool self) (generation self) v
    (max_fitness self) (target_population self) (closest_target self).

Definition set_max_fitness (v : option Q) (self : Evolution) : Evolution :=
  mkEvolution (target self) (populationsize self) (population self)
    (fitness self) (mating_pool self) (generation self) (target_acquired self)
    v (target_population self) (closest_target self).

Definition set_target_population (v : option str) (self : Evolution) : Evolution :=
  mkEvolution (target self) (populationsize self) (population self)
    (fitness self) (mating_pool self) (generation self) (target_acquired self)
    (max_fitness self) v (closest_target self).

Definition set_closest_target (v : option str) (self : Evolution) : Evolution :=
  mkEvolution (target self) (populationsize self) (population self)
    (fitness self) (mating_pool self) (generation self) (target_acquired self)
    (max_fitness self) (target_population self) v.

(** ** The monad of methods: object state, random cursor, exceptions *)

Inductive outcome (A : Type) : Type :=
| Ok (a : A) (self : Evolution) (pos : nat)
| Raise (e : exn) (self : Evolution) (pos : nat).
Arguments Ok {A} a self pos.
Arguments Raise {A} e self pos.

Definition M (A : Type) : Type := Evolution -> nat -> outcome A.

Definition ret {A} (a : A) : M A := fun self pos => Ok a self pos.

Definition bind {A B} (m : M A) (k : A -> M B) : M B :=
  fun self pos =>
    match m self pos with
    | Ok a self' pos' => k a self' pos'
    | Raise e self' pos' => Raise e self' pos'
    end.

Definition raise {A} (e : exn) : M A := fun self pos => Raise e self pos.

Definition gets {A} (f : Evolution -> A) : M A :=
  fun self pos => Ok (f self) self pos.

Definition modify (f : Evolution -> Evolution) : M unit :=
  fun self pos => Ok tt (f self) pos.

Declare Scope py_scope.
Delimit Scope py_scope with py.
Notation "x <- c ;; k" := (bind c (fun x => k))
  (at level 100, c at next level, right associativity) : py_scope.
Notation "c ;; k" := (bind c (fun _ => k))
  (at level 100, right associativity) : py_scope.
Open Scope py_scope.

(** [for x in l: acc = body(acc, x)] *)
Fixpoint foldM {A B} (body : B -> A -> M B) (l : list A) (acc : B) : M B :=
  match l with
  | [] => ret acc
  | x :: l' => acc' <- body acc x ;; foldM body l' acc'
  end.

Definition for_each {A} (l : list A) (body : A -> M unit) : M unit :=
  foldM (fun _ x => body x) l tt.

(** [range(0, n)] *)
Definition range (n : nat) : list nat := seq 0 n.

(** [s[i]] for a non-negative index *)
Definition getitem {A} (s : list A) (i : nat) : M A :=
  match nth_error s i with
  | Some c => ret c
  | None => raise IndexError
  end.

(** [score / n] on an [int] score and a length: the exact quotient, which
    stands for the correctly rounded double that Python returns
    ([to_double] of it, below) *)
Definition truediv (score n : nat) : M Q :=
  match n with
  | O => raise ZeroDivisionError
  | S _ => ret (Z.of_nat score # Pos.of_nat n)
  end.

(** ** NumPy *)

(** [np.rint]: round to the nearest integer, halves to the even one *)
Definition rint (q : Q) : Z :=
  let f := Qfloor q in
  match Qcompare (q - inject_Z f) (1 # 2) with
  | Lt => f
  | Gt => (f + 1)%Z
  | Eq => if Z.even f then f else (f + 1)%Z
  end.

(** ** IEEE 754 binary64 *)

(** [floor(log2 q)] for [q > 0] *)
Definition ilog2 (q : Q) : Z :=
  let l := (Z.log2 (Qnum q) - Z.log2 (Zpos (Qden q)))%Z in
  if Qle_bool (2 ^ l) q then l else (l - 1)%Z.

(** the doubles around [q > 0] are the multiples of [2 ^ ulp_exponent q]:
    53 significant bits, and the fixed spacing 2^-1074 below 2^-1021 *)
Definition ulp_exponent (q : Q) : Z := Z.max (ilog2 q - 52) (-1074).

(** the multiple of [2 ^ e] nearest to [q], ties to the even multiple *)
Definition round_grid (e : Z) (q : Q) : Q := inject_Z (rint (q / 2 ^ e)) * 2 ^ e.

Definition round_pos (q : Q) : Q := round_grid (ulp_exponent q) q.

(** the double nearest to [q], ties to the even significand, as a reduced
    fraction; a result of magnitude 2^1024 or more is an infinity, see
    [overflows] *)
Definition to_double (q : Q) : Q :=
  let q := Qred q in
  match Qcompare q 0 with
  | Eq => 0
  | Gt => Qred (round_pos q)
  | Lt => Qred (- round_pos (- q))
  end.

(** the rounded result is beyond the largest double: it is [inf] or [-inf] *)
Definition overflows (x : Q) : bool := Qle_bool (2 ^ 1024) (Qabs x).

(** [x * y] on two doubles: the exact product, rounded *)
Definition float_mul (x y : Q) : Q := to_double (x * y).

(** [int(np.rint(x))]: [np.rint] of an infinity is that infinity, and [int]
    of an infinity raises [OverflowError] *)
Definition int_rint (x : Q) : M Z :=
  if overflows x then raise OverflowError else ret (rint x).

Fixpoint cumsum_from (acc : Q) (p : list Q) : list Q :=
  match p with
  | [] => []
  | x :: p' => (acc + x)%Q :: cumsum_from (acc + x)%Q p'
  end.

Definition cumsum (p : list Q) : list Q := cumsum_from 0 p.

(** [cdf.searchsorted(u, side='right')] on a sorted [cdf] *)
Fixpoint searchsorted_right (cdf : list Q) (u : Q) : nat :=
  match cdf with
  | [] => O
  | c :: cdf' => if Qle_bool c u then S (searchsorted_right cdf' u) else O
  end.

Section RandomState.

Variable random_state : nat -> N.

Definition draw : M N :=
  fun self pos => Ok (random_state pos) self (S pos).

(** [np.random.choice(a)] *)
Definition choice {A} (a : list A) : M A :=
  match a with
  | [] => raise ValueError
  | d :: _ =>
      r <- draw ;;
      ret (nth (N.to_nat (r mod N.of_nat (length a))) a d)
  end.

(** [np.random.choice(a, size)] *)
Fixpoint choice_size {A} (a : list A) (size : nat) : M (list A) :=
  match size with
  | O => ret []
  | S size' =>
      x <- choice a ;;
      xs <- choice_size a size' ;;
      ret (x :: xs)
  end.

(** a uniform sample of [[0, 1)] *)
Definition random_sample : M Q :=
  r <- draw ;;
  ret (Z.of_N (r mod 2 ^ 53) # 2 ^ 53).

(** [np.random.choice(a, p=p)] *)
Definition choice_p {A} (a : list A) (p : list Q) : M A :=
  match a with
  | [] => raise ValueError
  | d :: _ =>
      if negb (length a =? length p)%nat then raise ValueError
      else if existsb (fun x => negb (Qle_bool 0 x)) p then raise ValueError
      else if negb (Qeq_bool (fold_right Qplus 0 p) 1) then raise ValueError
      else
        u <- random_sample ;;
        ret (nth (searchsorted_right (cumsum p) u) a d)
  end.

(** ** George.py *)

Definition generate_random_dna (N : nat) (target : str) : M str :=
  let dna_elements := map nat_of_ascii target in
  dna_nums <- choice_size dna_elements N ;;
  ret (map ascii_of_nat dna_nums).

Definition generate_initial_population : M unit :=
  modify (set_population []) ;;
  tgt <- gets target ;;
  let N := length tgt in
  size <- gets populationsize ;;
  for_each (range (Z.to_nat size)) (fun x =>
    tgt <- gets target ;;
    dna <- generate_random_dna N tgt ;;
    modify (fun self => set_population (population self ++ [dna]) self)).

Definition generate_fitness : M unit :=
  modify (set_fitness []) ;;
  pop <- gets population ;;
  for_each pop (fun member =>
    tgt <- gets target ;;
    score <- foldM (fun score i =>
               m_i <- getitem member i ;;
               t_i <- getitem tgt i ;;
               ret (if Ascii.eqb m_i t_i then S score else score))
             (range (length tgt)) O ;;
    tgt <- gets target ;;
    f <- truediv score (length tgt) ;;
    modify (fun self => set_fitness (fitness self ++ [f]) self)).

Definition create_mating_pool : M unit :=
  modify (set_mating_pool []) ;;
  pop <- gets population ;;
  for_each (combine (range (length pop)) pop) (fun '(i, member) =>
    fit <- gets fitness ;;
    score <- getitem fit i ;;
    n <- int_rint (float_mul (to_double score) 100) ;;
    for_each (range (Z.to_nat n)) (fun j =>
      modify (fun self => set_mating_pool (mating_pool self ++ [member]) self))).

(** the body of the [for x in range(...)] loop of [reproduction]: one pair
    of parents is drawn and its two babies are appended *)
Definition reproduction_pair : M unit :=
  pool <- gets mating_pool ;;
  parentA <- choice pool ;;
  pool <- gets mating_pool ;;
  let other_parents := filter (fun member => negb (str_eqb member parentA)) pool in
  parentB <- choice other_parents ;;
  tgt <- gets target ;;
  babies <- foldM (fun '(babyA, babyB) i =>
              a_i <- getitem parentA i ;;
              t_i <- getitem tgt i ;;
              babyA <- (if Ascii.eqb a_i t_i
                        then ret (babyA ++ [a_i])
                        else b_i <- getitem parentB i ;; ret (babyA ++ [b_i])) ;;
              b_i <- getitem parentB i ;;
              babyB <- (if Ascii.eqb b_i t_i
                        then ret (babyB ++ [b_i])
                        else a_i <- getitem parentA i ;; ret (babyB ++ [a_i])) ;;
              ret (babyA, babyB))
            (range (length tgt)) ([], []) ;;
  modify (fun self => set_population (population self ++ [fst babies]) self) ;;
  modify (fun self => set_population (population self ++ [snd babies]) self).

Definition reproduction : M unit :=
  modify (set_population []) ;;
  size <- gets populationsize ;;
  for_each (range (Z.to_nat (Z.quot size 2))) (fun x => reproduction_pair).

Inductive mutation_choice := mutate | no_mutate.

Definition mutation (mutation_rate : Q) : M unit :=
  pop <- gets population ;;
  new_population <- foldM (fun new_population member =>
      dna_out <- foldM (fun dna_out i =>
          mutation <- choice_p [mutate; no_mutate] [mutation_rate; 1 - mutation_rate] ;;
          match mutation with
          | mutate =>
              tgt <- gets target ;;
              dna <- generate_random_dna 1 tgt ;;
              ret (dna_out ++ dna)
          | no_mutate =>
              m_i <- getitem member i ;;
              ret (dna_out ++ [m_i])
          end)
        (range (length member)) [] ;;
      ret (new_population ++ [dna_out]))
    pop [] ;;
  modify (set_population new_population).

(** [max(l)]: the first of the largest elements *)
Fixpoint max_from (best : Q) (l : list Q) : Q :=
  match l with
  | [] => best
  | x :: l' => max_from (if Qlt_le_dec best x then x else best) l'
  end.

Definition py_max (l : list Q) : M Q :=
  match l with
  | [] => raise ValueError
  | x :: l' => ret (max_from x l')
  end.

(** [l.index(v)] *)
Fixpoint index (l : list Q) (v : Q) : option nat :=
  match l with
  | [] => None
  | x :: l' => if Qeq_bool x v then Some O else option_map S (index l' v)
  end.

Definition py_index (l : list Q) (v : Q) : M nat :=
  match index l v with
  | Some i => ret i
  | None => raise ValueError
  end.

(** [m] is the value just stored in [self.max_fitness], which the source
    reads back for [index] and for the comparison with 1.0 *)
Definition check_progress : M unit :=
  fit <- gets fitness ;;
  m <- py_max fit ;;
  modify (set_max_fitness (Some m)) ;;
  fit <- gets fitness ;;
  idx <- py_index fit m ;;
  pop <- gets population ;;
  closest <- getitem pop idx ;;
  modify (set_closest_target (Some closest)) ;;
  if Qeq_bool m 1 then
    modify (set_target_acquired true) ;;
    closest <- gets closest_target ;;
    modify (set_target_population closest)
  else ret tt.

Definition new_generation (mutation_rate : Q) : M unit :=
  reproduction ;;
  mutation mutation_rate ;;
  generate_fitness ;;
  check_progress ;;
  create_mating_pool ;;
  modify (fun self => set_generation (generation self + 1) self).

(** the [for i in range(0, rounds)] loop with its [break] *)
Fixpoint evolution_loop (rounds : nat) (mutation_rate : Q) : M unit :=
  match rounds with
  | O => ret tt
  | S rounds' =>
      new_generation mutation_rate ;;
      acquired <- gets target_acquired ;;
      if acquired then ret tt else evolution_loop rounds' mutation_rate
  end.

Definition evolution_rounds (rounds : Z) (mutation_rate : Q) : M unit :=
  evolution_loop (Z.to_nat rounds) mutation_rate.

(** [Evolution(target, populationsize)] *)
Definition __init__ (target : str) (populationsize : Z) : nat -> outcome unit :=
  (generate_initial_population ;;
   generate_fitness ;;
   create_mating_pool ;;
   check_progress)
  (mkEvolution target populationsize [] [] [] 1 false None None None).

End RandomState.

(** a string literal as a [str] *)
Definition lit (x : string) : str := list_ascii_of_string x.

(** a random source that replays [l] and then gives 0 *)
Definition tape (l : list N) : nat -> N := fun k => nth k l 0%N.



(** ** Specification-side definitions *)

(** position [i] of [member] carries the character of [tgt] *)
Definition agree (member tgt : str) (i : nat) : bool :=
  match nth_error member i, nth_error tgt i with
  | Some a, Some b => Ascii.eqb a b
  | _, _ => false
  end.

(** the number of index positions where [member] and [tgt] are equal *)
Definition matches (member tgt : str) : nat :=
  length (filter (agree member tgt) (range (length tgt))).

(** matches / N *)
Definition fitness_of (tgt member : str) : Q :=
  Z.of_nat (matches member tgt) # Pos.of_nat (length tgt).

(** what a method call establishes: [Q] when it returns, [E] when it raises *)
Definition post {A} (m : M A) (self : Evolution) (pos : nat)
    (Q : A -> Evolution -> nat -> Prop)
    (E : exn -> Evolution -> nat -> Prop) : Prop :=
  match m self pos with
  | Ok a self' pos' => Q a self' pos'
  | Raise e self' pos' => E e self' pos'
  end.

(** the number of pool entries of an individual of fitness [f]: the double
    [f] times 100, as a double, rounded half to even *)
Definition copies (f : Q) : nat := Z.to_nat (rint (float_mul (to_double f) 100)).

(** no infinity arises in the pool count of fitness [f] *)
Definition finite_count (f : Q) : Prop :=
  overflows (float_mul (to_double f) 100) = false.

(** the pool of a population and its parallel fitness vector: for each
    individual in turn, [copies] of it in a row *)
Definition pool_of (pop : list str) (fit : list Q) : list str :=
  concat (map (fun mf => repeat (fst mf) (copies (snd mf))) (combine pop fit)).

(** character [i] of the baby that keeps what [p] has right and takes the
    rest from [q] *)
Definition cross (p q tgt : str) (i : nat) : ascii :=
  if agree p tgt i then nth i p zero else nth i q zero.

Definition baby (p q tgt : str) : str :=
  map (cross p q tgt) (range (length tgt)).

(** an individual of the target's length, written with the target's
    characters *)
Definition well_formed (tgt member : str) : Prop :=
  length member = length tgt /\ Forall (fun c => In c tgt) member.

(** the objects a caller can hold: [Evolution(T, P)] once it has returned,
    and what any number of returning [new_generation] calls make of it *)
Inductive reachable (random_state : nat -> N) (T : str) (P : Z) : Evolution -> Prop :=
| reach_init pos self pos' :
    __init__ random_state T P pos = Ok tt self pos' ->
    reachable random_state T P self
| reach_step self pos mutation_rate self' pos' :
    reachable random_state T P self ->
    new_generation random_state mutation_rate self pos = Ok tt self' pos' ->
    reachable random_state T P self'.

(** [self'] is [self] but for the attributes [check_progress] writes *)
Definition same_population (self self' : Evolution) : Prop :=
  target self' = target self
  /\ populationsize self' = populationsize self
  /\ population self' = population self
  /\ fitness self' = fitness self
  /\ mating_pool self' = mating_pool self.

(** an object with the given target, size, population, fitness vector and
    mating pool, and the other attributes as [__init__] first sets them *)
Definition an_evolution (T : str) (P : Z) (pop : list str) (fit : list Q)
    (pool : list str) : Evolution :=
  mkEvolution T P pop fit pool 1 false None None None.

(** the character of [tgt] that the random draw [r] selects *)
Definition drawn_char (tgt : str) (r : N) : ascii :=
  nth (N.to_nat (r mod N.of_nat (length tgt))) tgt zero.

(** what every method leaves as it is: the target and the size; and what it
    never undoes: a [target_acquired] that is already set *)
Definition keeps (self self' : Evolution) : Prop :=
  target self' = target self
  /\ populationsize self' = populationsize self
  /\ (target_acquired self = true -> target_acquired self' = true).

(** the object [check_progress] leaves when the largest fitness is [m] and
    the first individual that has it is [closest] *)
Definition progress_checked (m : Q) (closest : str) (self : Evolution) : Evolution :=
  let self1 := set_closest_target (Some closest) (set_max_fitness (Some m) self) in
  if Qeq_bool m 1
  then set_target_population (Some closest) (set_target_acquired true self1)
  else self1.

(** [dna] is [member] with some characters replaced, each in its place, by
    characters of [tgt] *)
Definition mutant_of (tgt member dna : str) : Prop :=
  length dna = length member
  /\ forall i c, nth_error dna i = Some c ->
       nth_error member i = Some c \/ In c tgt.

(** the derived attributes agree with the population: the fitness vector
    and the mating pool are those of the population, [closest_target] is an
    individual of the largest fitness, [max_fitness] that fitness, and
    [target_population] is unset until the target is acquired and the
    target from then on *)
Definition in_step (T : str) (self : Evolution) : Prop :=
  fitness self = map (fitness_of T) (population self)
  /\ mating_pool self = pool_of (population self) (fitness self)
  /\ (In T (population self) -> target_acquired self = true)
  /\ (target_acquired self = true -> target_population self = Some T)
  /\ (target_acquired self = false -> target_population self = None)
  /\ exists closest m,
       closest_target self = Some closest
       /\ max_fitness self = Some m
       /\ In closest (population self)
       /\ fitness_of T closest == m
       /\ forall member, In member (population self) -> fitness_of T member <= m.

(** ** The logic of [post] *)

Lemma post_ret {A} (a : A) self pos Q E :
  Q a self pos -> post (ret a) self pos Q E.
Proof. exact (fun H => H). Qed.

Lemma post_raise {A} e self pos (Q : A -> _) (E : exn -> _) :
  E e self pos -> post (raise e) self pos Q E.
Proof. exact (fun H => H). Qed.

Lemma post_gets {A} (f : Evolution -> A) self pos Q E :
  Q (f self) self pos -> post (gets f) self pos Q E.
Proof. exact (fun H => H). Qed.

Lemma post_modify f self pos Q E :
  Q tt (f self) pos -> post (modify f) self pos Q E.
Proof. exact (fun H => H). Qed.

Lemma post_bind {A B} (m : M A) (k : A -> M B) self pos Q E :
  post m self pos (fun a self' pos' => post (k a) self' pos' Q E) E ->
  post (bind m k) self pos Q E.
Proof.
  unfold post, bind. destruct (m self pos); auto.
Qed.

Lemma post_weaken {A} (m : M A) self pos (Q Q' : A -> _) (E E' : exn -> _) :
  post m self pos Q E ->
  (forall a self' pos', Q a self' pos' -> Q' a self' pos') ->
  (forall e self' pos', E e self' pos' -> E' e self' pos') ->
  post m self pos Q' E'.
Proof.
  unfold post. destruct (m self pos); auto.
Qed.

Lemma bind_eq {A B} (m : M A) (k : A -> M B) self pos a self' pos' :
  m self pos = Ok a self' pos' -> bind m k self pos = k a self' pos'.
Proof. unfold bind. now intros ->. Qed.

Lemma bind_raise {A B} (m : M A) (k : A -> M B) self pos e self' pos' :
  m self pos = Raise e self' pos' -> bind m k self pos = Raise e self' pos'.
Proof. unfold bind. now intros ->. Qed.

Lemma post_ok {A} (m : M A) self pos Q :
  post m self pos Q (fun _ _ _ => False) ->
  exists a self' pos', m self pos = Ok a self' pos' /\ Q a self' pos'.
Proof.
  unfold post. destruct (m self pos); [eauto | tauto].
Qed.

Lemma post_of_ok {A} (m : M A) self pos a self' pos' (Q : A -> _) (E : exn -> _) :
  m self pos = Ok a self' pos' -> Q a self' pos' -> post m self pos Q E.
Proof. unfold post. now intros ->. Qed.

(** the loop rule: [I done acc] holds after the items [done] *)
Lemma post_foldM_from {A B} (body : B -> A -> M B) (l : list A)
    (I : list A -> B -> Evolution -> nat -> Prop) E :
  (forall done x rest acc self pos,
      l = done ++ x :: rest -> I done acc self pos ->
      post (body acc x) self pos (I (done ++ [x])) E) ->
  forall rest done acc self pos,
    l = done ++ rest -> I done acc self pos ->
    post (foldM body rest acc) self pos (I l) E.
Proof.
  intros Hbody rest.
  induction rest as [|x rest IH]; intros done acc self pos Hl HI.
  - rewrite app_nil_r in Hl. subst done. exact HI.
  - cbn [foldM]. apply post_bind.
    eapply post_weaken; [eapply Hbody; eauto | | auto].
    intros acc' self' pos' HI'. apply (IH (done ++ [x])); auto.
    now rewrite <- app_assoc.
Qed.

Lemma post_foldM {A B} (body : B -> A -> M B) (l : list A)
    (I : list A -> B -> Evolution -> nat -> Prop) E acc self pos :
  I [] acc self pos ->
  (forall done x rest acc self pos,
      l = done ++ x :: rest -> I done acc self pos ->
      post (body acc x) self pos (I (done ++ [x])) E) ->
  post (foldM body l acc) self pos (I l) E.
Proof.
  intros H0 Hbody. now apply (post_foldM_from body l I E Hbody l []).
Qed.

Lemma post_for_each {A} (l : list A) (body : A -> M unit)
    (I : list A -> Evolution -> nat -> Prop) E self pos :
  I [] self pos ->
  (forall done x rest self pos,
      l = done ++ x :: rest -> I done self pos ->
      post (body x) self pos (fun _ => I (done ++ [x])) E) ->
  post (for_each l body) self pos (fun _ => I l) E.
Proof.
  intros H0 Hbody. unfold for_each.
  apply (post_foldM (fun _ x => body x) l (fun done _ => I done)); auto.
  intros done x rest _ self' pos' Hl HI. exact (Hbody done x rest self' pos' Hl HI).
Qed.

Ltac step :=
  lazymatch goal with
  | |- post (bind _ _) _ _ _ _ => apply post_bind
  | |- post (ret _) _ _ _ _ => apply post_ret; cbv beta
  | |- post (raise _) _ _ _ _ => apply post_raise; cbv beta
  | |- post (gets _) _ _ _ _ => apply post_gets; cbv beta
  | |- post (modify _) _ _ _ _ => apply post_modify; cbv beta
  end.

Tactic Notation "call" uconstr(H) :=
  eapply post_weaken; [eapply H | cbv beta | cbv beta].

(** ** Strings and characters *)

Lemma str_eqb_eq a b : str_eqb a b = true <-> a = b.
Proof.
  revert b. induction a as [|x a IH]; intros [|y b]; cbn; try easy.
  rewrite andb_true_iff, Ascii.eqb_eq, IH. split.
  - now intros [-> ->].
  - intros H. now inversion H.
Qed.

Lemma str_eqb_refl a : str_eqb a a = true.
Proof. now apply str_eqb_eq. Qed.

Lemma filter_length_full {A} (f : A -> bool) l :
  length (filter f l) = length l <-> Forall (fun x => f x = true) l.
Proof.
  induction l as [|x l IH]; cbn.
  - split; auto.
  - pose proof (filter_length_le f l) as Hle.
    destruct (f x) eqn:Hx; cbn.
    + split.
      * intros H. constructor; auto. apply IH. lia.
      * intros H. inversion H; subst. f_equal. now apply IH.
    + split; [lia|]. intros H. inversion H; congruence.
Qed.

Lemma matches_le member tgt : (matches member tgt <= length tgt)%nat.
Proof.
  unfold matches, range.
  etransitivity; [apply filter_length_le|]. now rewrite length_seq.
Qed.

Lemma matches_full member tgt :
  length member = length tgt ->
  matches member tgt = length tgt <-> member = tgt.
Proof.
  intros Hlen. unfold matches, range.
  pose proof (filter_length_full (agree member tgt) (seq 0 (length tgt))) as HF.
  rewrite length_seq in HF. rewrite HF, Forall_forall. clear HF. split.
  - intros H. apply nth_error_ext. intros i.
    destruct (Nat.lt_ge_cases i (length tgt)) as [Hi|Hi].
    + specialize (H i). rewrite in_seq in H. specialize (H ltac:(lia)).
      unfold agree in H.
      destruct (nth_error member i), (nth_error tgt i); try discriminate.
      apply Ascii.eqb_eq in H. now subst.
    + assert (nth_error member i = None) as -> by (apply nth_error_None; lia).
      symmetry. now apply nth_error_None.
  - intros -> i Hi. apply in_seq in Hi. unfold agree.
    destruct (nth_error tgt i) eqn:Hn.
    + apply Ascii.eqb_refl.
    + apply nth_error_None in Hn. lia.
Qed.

Lemma fitness_of_bounds tgt member :
  tgt <> [] -> 0 <= fitness_of tgt member /\ fitness_of tgt member <= 1.
Proof.
  intros Ht. pose proof (matches_le member tgt) as Hle.
  assert (length tgt <> 0)%nat by (destruct tgt; cbn; congruence).
  unfold fitness_of, Qle; cbn. split; lia.
Qed.

Lemma fitness_of_one tgt member :
  tgt <> [] -> length member = length tgt ->
  fitness_of tgt member == 1 <-> member = tgt.
Proof.
  intros Ht Hlen.
  assert (length tgt <> 0)%nat by (destruct tgt; cbn; congruence).
  rewrite <- (matches_full member tgt Hlen).
  unfold fitness_of, Qeq; cbn. lia.
Qed.

(** ** generate_fitness *)

Lemma score_loop member tgt self pos :
  forall n k acc,
    (k + n <= length member)%nat -> (k + n <= length tgt)%nat ->
    foldM (fun score i =>
             m_i <- getitem member i ;;
             t_i <- getitem tgt i ;;
             ret (if Ascii.eqb m_i t_i then S score else score))
          (seq k n) acc self pos
    = Ok (acc + length (filter (agree member tgt) (seq k n)))%nat self pos.
Proof.
  induction n as [|n IH]; intros k acc Hm Ht; cbn [seq foldM filter].
  - unfold ret. f_equal. cbn. lia.
  - destruct (nth_error member k) as [a|] eqn:Ha;
      [|apply nth_error_None in Ha; lia].
    destruct (nth_error tgt k) as [b|] eqn:Hb;
      [|apply nth_error_None in Hb; lia].
    assert (agree member tgt k = Ascii.eqb a b) as ->
      by (unfold agree; now rewrite Ha, Hb).
    unfold bind at 1 2 3, getitem. rewrite Ha, Hb.
    cbn. rewrite IH by lia.
    destruct (Ascii.eqb a b); cbn; f_equal; lia.
Qed.

Lemma generate_fitness_loop tgt :
  tgt <> [] ->
  forall pop self pos,
    target self = tgt ->
    Forall (fun member => length member = length tgt) pop ->
    for_each pop (fun member =>
      tgt <- gets target ;;
      score <- foldM (fun score i =>
                 m_i <- getitem member i ;;
                 t_i <- getitem tgt i ;;
                 ret (if Ascii.eqb m_i t_i then S score else score))
               (range (length tgt)) O ;;
      tgt <- gets target ;;
      f <- truediv score (length tgt) ;;
      modify (fun self => set_fitness (fitness self ++ [f]) self)) self pos
    = Ok tt (set_fitness (fitness self ++ map (fitness_of tgt) pop) self) pos.
Proof.
  intros Hne pop. unfold for_each.
  induction pop as [|member pop IH]; intros self pos Htgt Hshape; cbn [foldM map].
  - unfold ret. rewrite app_nil_r. now destruct self.
  - inversion Hshape as [|? ? Hm Hpop]; subst.
    unfold bind at 1 2 3, gets at 1. unfold range.
    rewrite score_loop by lia.
    unfold bind at 1 2, gets at 1, truediv.
    destruct (length (target self)) eqn:Hlen;
      [destruct (target self); [congruence | discriminate]|].
    unfold ret at 1, modify at 1.
    rewrite IH by auto. cbn [fitness set_fitness target].
    f_equal. unfold set_fitness; cbn. f_equal.
    rewrite <- app_assoc. cbn. do 3 f_equal.
    unfold fitness_of, matches, range. now rewrite Hlen.
Qed.

Lemma generate_fitness_eq self pos :
  target self <> [] ->
  Forall (fun member => length member = length (target self)) (population self) ->
  generate_fitness self pos
  = Ok tt (set_fitness (map (fitness_of (target self)) (population self)) self) pos.
Proof.
  intros Hne Hshape.
  unfold generate_fitness, bind at 1 2, modify at 1, gets at 1.
  cbn [population set_fitness].
  rewrite (generate_fitness_loop (target self)); auto.
Qed.

(** C5: on a population of individuals of the target's length N > 0,
    [generate_fitness] returns, draws nothing, and stores for every member
    (number of positions equal to the target's) / N; each score lies in
    [0, 1] and equals 1 exactly when the member is the target. *)
Theorem generate_fitness_correct self pos :
  target self <> [] ->
  Forall (fun member => length member = length (target self)) (population self) ->
  generate_fitness self pos
  = Ok tt (set_fitness (map (fitness_of (target self)) (population self)) self) pos
  /\ forall member, In member (population self) ->
       0 <= fitness_of (target self) member
       /\ fitness_of (target self) member <= 1
       /\ (fitness_of (target self) member == 1 <-> member = target self).
Proof.
  intros Hne Hshape. split.
  - now apply generate_fitness_eq.
  - intros member Hin. rewrite Forall_forall in Hshape.
    pose proof (fitness_of_bounds (target self) member Hne) as [H0 H1].
    pose proof (fitness_of_one (target self) member Hne (Hshape _ Hin)).
    tauto.
Qed.

(** ** create_mating_pool *)

Lemma rint_comp q q' : q == q' -> rint q = rint q'.
Proof.
  intros H. unfold rint. rewrite <- (Qfloor_comp q q' H).
  assert (q - inject_Z (Qfloor q) == q' - inject_Z (Qfloor q)) as Hd
    by (apply Qplus_comp; [exact H | reflexivity]).
  now rewrite (Qcompare_comp _ _ Hd (1 # 2) (1 # 2) (Qeq_refl _)).
Qed.

Lemma rint_nearest q :
  inject_Z (rint q) - (1 # 2) <= q /\ q <= inject_Z (rint q) + (1 # 2).
Proof.
  pose proof (Qfloor_le q) as Hlo. pose proof (Qlt_floor q) as Hhi.
  rewrite inject_Z_plus in Hhi. change (inject_Z 1) with 1 in Hhi.
  unfold rint.
  destruct (Qcompare (q - inject_Z (Qfloor q)) (1 # 2)) eqn:Hc.
  - apply Qeq_alt in Hc.
    destruct (Z.even (Qfloor q)).
    + split; lra.
    + rewrite inject_Z_plus. change (inject_Z 1) with 1. split; lra.
  - apply Qlt_alt in Hc. split; lra.
  - apply Qgt_alt in Hc. rewrite inject_Z_plus. change (inject_Z 1) with 1.
    split; lra.
Qed.

Lemma rint_half_even q :
  q - inject_Z (rint q) == 1 # 2 \/ inject_Z (rint q) - q == 1 # 2 ->
  Z.even (rint q) = true.
Proof.
  pose proof (Qfloor_le q) as Hlo. pose proof (Qlt_floor q) as Hhi.
  rewrite inject_Z_plus in Hhi. change (inject_Z 1) with 1 in Hhi.
  unfold rint.
  destruct (Qcompare (q - inject_Z (Qfloor q)) (1 # 2)) eqn:Hc.
  - destruct (Z.even (Qfloor q)) eqn:He; auto.
    intros _. rewrite Z.even_add, He. reflexivity.
  - apply Qlt_alt in Hc. intros [H|H]; lra.
  - apply Qgt_alt in Hc. rewrite inject_Z_plus. change (inject_Z 1) with 1.
    intros [H|H]; lra.
Qed.

Lemma rint_mono q q' : q <= q' -> (rint q <= rint q')%Z.
Proof.
  intros Hle. destruct (Z.le_gt_cases (rint q) (rint q')) as [H|H]; [exact H|].
  exfalso.
  assert (Hz : inject_Z (rint q') + 1 <= inject_Z (rint q)).
  { change 1 with (inject_Z 1). rewrite <- inject_Z_plus, <- Zle_Qle. lia. }
  destruct (rint_nearest q) as [Hq _]. destruct (rint_nearest q') as [_ Hq'].
  assert (Heq : q == q') by lra.
  rewrite (rint_comp q q' Heq) in H. lia.
Qed.

(** *** Powers of two and the binary logarithm *)
Lemma pow2_pos k : 0 < 2 ^ k.
Proof. apply Qpower_0_lt. reflexivity. Qed.

Lemma pow2_plus a b : 2 ^ (a + b) == 2 ^ a * 2 ^ b.
Proof. apply Qpower_plus. intros H. discriminate H. Qed.

Lemma pow2_le a b : (a <= b)%Z -> 2 ^ a <= 2 ^ b.
Proof. intros H. apply Qpower_le_compat_l; [exact H|]. discriminate. Qed.

Lemma pow2_inject n : (0 <= n)%Z -> inject_Z (2 ^ n) == 2 ^ n.
Proof. intros H. now rewrite Zpower_Qpower. Qed.

Lemma ilog2_spec q : 0 < q -> 2 ^ ilog2 q <= q /\ q < 2 ^ (ilog2 q + 1).
Proof.
  intros Hq. destruct q as [n d].
  assert (Hn : (0 < n)%Z) by (unfold Qlt in Hq; cbn in Hq; lia).
  pose proof (Z.log2_spec n Hn) as [Hn1 Hn2].
  pose proof (Z.log2_spec (Zpos d) eq_refl) as [Hd1 Hd2].
  pose proof (Z.log2_nonneg n) as Hln. pose proof (Z.log2_nonneg (Zpos d)) as Hld.
  set (ln := Z.log2 n) in *. set (ld := Z.log2 (Zpos d)) in *.
  assert (Hdpos : 0 < inject_Z (Zpos d)) by reflexivity.
  assert (HA : n # d < 2 ^ (ln - ld + 1)).
  { rewrite (Qmake_Qdiv n d). apply Qlt_shift_div_r; [exact Hdpos|].
    apply Qlt_le_trans with (2 ^ (ln - ld + 1) * 2 ^ ld).
    - rewrite <- pow2_plus. replace (ln - ld + 1 + ld)%Z with (Z.succ ln) by lia.
      rewrite <- pow2_inject by lia. rewrite <- Zlt_Qlt. exact Hn2.
    - apply Qmult_le_l; [apply pow2_pos|].
      rewrite <- pow2_inject by lia. rewrite <- Zle_Qle. exact Hd1. }
  assert (HB : 2 ^ (ln - ld - 1) <= n # d).
  { rewrite (Qmake_Qdiv n d). apply Qle_shift_div_l; [exact Hdpos|].
    apply Qle_trans with (2 ^ (ln - ld - 1) * 2 ^ (Z.succ ld)).
    - apply Qmult_le_l; [apply pow2_pos|].
      rewrite <- pow2_inject by lia. rewrite <- Zle_Qle. lia.
    - rewrite <- pow2_plus. replace (ln - ld - 1 + Z.succ ld)%Z with ln by lia.
      rewrite <- pow2_inject by lia. rewrite <- Zle_Qle. exact Hn1. }
  unfold ilog2. cbn [Qnum Qden]. fold ln ld.
  destruct (Qle_bool (2 ^ (ln - ld)) (n # d)) eqn:Ht.
  - apply Qle_bool_iff in Ht. split; [exact Ht | exact HA].
  - split; [exact HB|].
    replace (ln - ld - 1 + 1)%Z with (ln - ld)%Z by lia.
    destruct (Qlt_le_dec (n # d) (2 ^ (ln - ld))) as [H|H]; [exact H|].
    apply Qle_bool_iff in H. congruence.
Qed.

Lemma rint_inject z : rint (inject_Z z) = z.
Proof.
  unfold rint. rewrite Qfloor_Z.
  destruct (Qcompare (inject_Z z - inject_Z z) (1 # 2)) eqn:Hc.
  - apply Qeq_alt in Hc. lra.
  - reflexivity.
  - apply Qgt_alt in Hc. lra.
Qed.

Lemma round_grid_mono e q q' : q <= q' -> round_grid e q <= round_grid e q'.
Proof.
  intros H. unfold round_grid.
  apply Qmult_le_compat_r; [|apply Qlt_le_weak, pow2_pos].
  rewrite <- Zle_Qle. apply rint_mono.
  apply Qmult_le_compat_r; [exact H|].
  apply Qlt_le_weak, Qinv_lt_0_compat, pow2_pos.
Qed.

Lemma round_grid_fix e z : round_grid e (inject_Z z * 2 ^ e) == inject_Z z * 2 ^ e.
Proof.
  unfold round_grid.
  assert (H : inject_Z z * 2 ^ e / 2 ^ e == inject_Z z).
  { apply Qdiv_mult_l. intros H0. pose proof (pow2_pos e) as Hp.
    rewrite H0 in Hp. discriminate Hp. }
  now rewrite (rint_comp _ _ H), rint_inject.
Qed.

Lemma pow2_nonzero e : ~ 2 ^ e == 0.
Proof.
  intros H0. pose proof (pow2_pos e) as Hp. rewrite H0 in Hp. discriminate Hp.
Qed.

Lemma round_grid_pow2 e k :
  (e <= k)%Z -> round_grid e (2 ^ k) == 2 ^ k.
Proof.
  intros H.
  assert (Hk : 2 ^ k == 2 ^ (k - e) * 2 ^ e).
  { rewrite <- pow2_plus. replace (k - e + e)%Z with k by lia. reflexivity. }
  assert (Hd : 2 ^ k / 2 ^ e == inject_Z (2 ^ (k - e))).
  { rewrite pow2_inject by lia. rewrite Hk. apply Qdiv_mult_l, pow2_nonzero. }
  unfold round_grid. rewrite (rint_comp _ _ Hd), rint_inject.
  rewrite pow2_inject by lia. now symmetry.
Qed.

Lemma ulp_exponent_min q : (-1074 <= ulp_exponent q)%Z.
Proof. unfold ulp_exponent. lia. Qed.

Lemma ulp_exponent_upper q : 0 < q -> q < 2 ^ (ulp_exponent q + 53).
Proof.
  intros Hq. destruct (ilog2_spec q Hq) as [_ Hu].
  eapply Qlt_le_trans; [exact Hu|]. apply pow2_le. unfold ulp_exponent. lia.
Qed.

Lemma ulp_exponent_lower q :
  0 < q -> (-1074 < ulp_exponent q)%Z -> 2 ^ (ulp_exponent q + 52) <= q.
Proof.
  intros Hq He. destruct (ilog2_spec q Hq) as [Hl _].
  replace (ulp_exponent q + 52)%Z with (ilog2 q); [exact Hl|].
  unfold ulp_exponent in *. lia.
Qed.

Lemma round_pos_mono q q' : 0 < q -> q <= q' -> round_pos q <= round_pos q'.
Proof.
  intros Hq Hle. assert (Hq' : 0 < q') by (eapply Qlt_le_trans; eauto).
  unfold round_pos.
  pose proof (ulp_exponent_min q) as Hm. pose proof (ulp_exponent_min q') as Hm'.
  set (e := ulp_exponent q) in *. set (e' := ulp_exponent q') in *.
  destruct (Z.lt_trichotomy e e') as [Hlt|[Heq|Hgt]].
  - apply Qle_trans with (2 ^ (e + 53)).
    + rewrite <- (round_grid_pow2 e (e + 53)) by lia.
      apply round_grid_mono, Qlt_le_weak, ulp_exponent_upper, Hq.
    + apply Qle_trans with (2 ^ (e' + 52)); [apply pow2_le; lia|].
      rewrite <- (round_grid_pow2 e' (e' + 52)) by lia.
      apply round_grid_mono, ulp_exponent_lower; [exact Hq' | fold e'; lia].
  - rewrite Heq. now apply round_grid_mono.
  - exfalso.
    pose proof (ulp_exponent_lower q Hq ltac:(fold e; lia)) as Hl.
    pose proof (ulp_exponent_upper q' Hq') as Hu. fold e in Hl. fold e' in Hu.
    assert (2 ^ (e' + 53) <= 2 ^ (e + 52)) by (apply pow2_le; lia).
    lra.
Qed.

Lemma round_pos_nonneg q : 0 < q -> 0 <= round_pos q.
Proof.
  intros Hq. unfold round_pos, round_grid.
  apply Qmult_le_0_compat; [|apply Qlt_le_weak, pow2_pos].
  change 0 with (inject_Z 0). rewrite <- Zle_Qle.
  rewrite <- (rint_inject 0). apply rint_mono.
  apply Qmult_le_0_compat; [now apply Qlt_le_weak|].
  apply Qlt_le_weak, Qinv_lt_0_compat, pow2_pos.
Qed.

Lemma to_double_mono q q' : q <= q' -> to_double q <= to_double q'.
Proof.
  intros Hle. unfold to_double.
  pose proof (Qred_correct q) as Ha. pose proof (Qred_correct q') as Hb.
  set (a := Qred q) in *. set (b := Qred q') in *.
  assert (Hab : a <= b) by (rewrite Ha, Hb; exact Hle).
  destruct (Qcompare_spec a 0) as [Ha0|Ha0|Ha0];
    destruct (Qcompare_spec b 0) as [Hb0|Hb0|Hb0];
    rewrite ?Qred_correct; try lra.
  - now apply round_pos_nonneg.
  - pose proof (round_pos_nonneg (- a) ltac:(lra)). lra.
  - pose proof (round_pos_mono (- b) (- a) ltac:(lra) ltac:(lra)). lra.
  - pose proof (round_pos_nonneg (- a) ltac:(lra)).
    pose proof (round_pos_nonneg b Hb0). lra.
  - now apply round_pos_mono.
Qed.

Lemma to_double_comp q q' : q == q' -> to_double q = to_double q'.
Proof. intros H. unfold to_double. now rewrite (Qred_complete q q' H). Qed.


Lemma round_pos_nearest q :
  0 < q ->
  exists m,
    round_pos q == inject_Z m * 2 ^ ulp_exponent q
    /\ inject_Z m * 2 ^ ulp_exponent q - (1 # 2) * 2 ^ ulp_exponent q <= q
    /\ q <= inject_Z m * 2 ^ ulp_exponent q + (1 # 2) * 2 ^ ulp_exponent q.
Proof.
  intros Hq. set (e := ulp_exponent q).
  exists (rint (q / 2 ^ e)). split; [reflexivity|].
  pose proof (pow2_pos e) as Hp.
  destruct (rint_nearest (q / 2 ^ e)) as [Hlo Hhi].
  assert (Hx : q == q / 2 ^ e * 2 ^ e)
    by (unfold Qdiv; rewrite <- Qmult_assoc, (Qmult_comm (/ 2 ^ e)),
          Qmult_inv_r by apply pow2_nonzero; ring).
  set (x := q / 2 ^ e) in *. set (m := inject_Z (rint x)) in *.
  assert (Ha : (m - (1 # 2)) * 2 ^ e <= x * 2 ^ e)
    by (apply Qmult_le_compat_r; [exact Hlo | now apply Qlt_le_weak]).
  assert (Hb : x * 2 ^ e <= (m + (1 # 2)) * 2 ^ e)
    by (apply Qmult_le_compat_r; [exact Hhi | now apply Qlt_le_weak]).
  rewrite <- Hx in Ha, Hb.
  split.
  - apply Qle_trans with ((m - (1 # 2)) * 2 ^ e); [|exact Ha].
    apply Qle_lteq. right. ring.
  - apply Qle_trans with ((m + (1 # 2)) * 2 ^ e); [exact Hb|].
    apply Qle_lteq. right. ring.
Qed.

(** *** Scores as doubles *)

Lemma to_double_pos q : 0 < q -> to_double q == round_pos (Qred q).
Proof.
  intros Hq. unfold to_double.
  assert (Hr : 0 < Qred q) by now rewrite Qred_correct.
  apply Qgt_alt in Hr. rewrite Hr. apply Qred_correct.
Qed.

Lemma ulp_exponent_unit q : 0 < q -> q < 1 -> (ulp_exponent q <= -53)%Z.
Proof.
  intros H0 H1. destruct (ilog2_spec q H0) as [Hl _].
  assert (ilog2 q < 0)%Z.
  { destruct (Z_lt_le_dec (ilog2 q) 0) as [|Hge]; [assumption|].
    pose proof (pow2_le 0 (ilog2 q) Hge) as Hp. change (2 ^ 0) with 1 in Hp. lra. }
  unfold ulp_exponent. lia.
Qed.

(** on [[0, 1]] rounding to a double moves a value by at most 2^-54 *)
Lemma to_double_error x :
  0 <= x -> x <= 1 ->
  x - 2 ^ (-54) <= to_double x /\ to_double x <= x + 2 ^ (-54).
Proof.
  intros H0 H1.
  assert (Hc : 0 < 2 ^ (-54)) by apply pow2_pos.
  destruct (Qlt_le_dec 0 x) as [Hpos|Hz].
  - destruct (Qlt_le_dec x 1) as [Hlt|Hone].
    + rewrite (to_double_pos x Hpos).
      pose proof (Qred_correct x) as Hr. set (q := Qred x) in *.
      assert (Hq0 : 0 < q) by now rewrite Hr.
      assert (Hq1 : q < 1) by now rewrite Hr.
      destruct (round_pos_nearest q Hq0) as (m & -> & Hlo & Hhi).
      pose proof (ulp_exponent_unit q Hq0 Hq1) as He.
      assert (Hh : (1 # 2) * 2 ^ ulp_exponent q <= 2 ^ (-54)).
      { apply Qle_trans with ((1 # 2) * 2 ^ (-53)).
        - apply Qmult_le_l; [reflexivity | now apply pow2_le].
        - apply Qle_lteq. right. reflexivity. }
      rewrite <- Hr. split; lra.
    + assert (Hx : x == 1) by lra.
      rewrite (to_double_comp x 1 Hx).
      assert (Ho : to_double 1 = 1) by (vm_compute; reflexivity).
      rewrite Ho. split; lra.
  - assert (Hx : x == 0) by lra.
    rewrite (to_double_comp x 0 Hx).
    assert (Ho : to_double 0 = 0) by reflexivity.
    rewrite Ho. split; lra.
Qed.

(** two values of [[0, 1]] more than 2^-53 apart round to different doubles *)
Lemma to_double_separates x y :
  0 <= x -> y <= 1 -> 2 ^ (-53) < y - x -> to_double x < to_double y.
Proof.
  intros H0 H1 Hd.
  assert (Hc : 0 < 2 ^ (-53)) by apply pow2_pos.
  assert (Hs : 2 ^ (-54) + 2 ^ (-54) == 2 ^ (-53)) by reflexivity.
  destruct (to_double_error x H0 ltac:(lra)) as [_ Hx].
  destruct (to_double_error y ltac:(lra) H1) as [Hy _].
  lra.
Qed.

(** the scores [k / n] of a target of fewer than 2^53 characters are more
    than 2^-53 apart, so that distinct scores are distinct doubles in the
    same order *)
Lemma quotient_double_lt (k1 k2 n : nat) :
  (0 < n)%nat -> (Z.of_nat n < 2 ^ 53)%Z -> (k1 < k2 <= n)%nat ->
  to_double (Z.of_nat k1 # Pos.of_nat n) < to_double (Z.of_nat k2 # Pos.of_nat n).
Proof.
  intros Hn Hb Hk. apply to_double_separates.
  - unfold Qle. cbn. lia.
  - unfold Qle. cbn. lia.
  - assert (H53 : 2 ^ (-53) == 1 # 9007199254740992) by reflexivity.
    rewrite H53. unfold Qlt, Qminus, Qplus, Qopp. cbn [Qnum Qden].
    rewrite Pos2Z.inj_mul.
    assert (Hp : Z.pos (Pos.of_nat n) = Z.of_nat n)
      by (rewrite <- (positive_nat_Z (Pos.of_nat n)), Nat2Pos.id by lia;
          reflexivity).
    rewrite Hp. change (2 ^ 53)%Z with 9007199254740992%Z in Hb. nia.
Qed.

Lemma fitness_of_double_lt tgt p q :
  tgt <> [] -> (Z.of_nat (length tgt) < 2 ^ 53)%Z ->
  fitness_of tgt p < fitness_of tgt q ->
  to_double (fitness_of tgt p) < to_double (fitness_of tgt q).
Proof.
  intros Hne Hb Hlt.
  assert (Hn : (0 < length tgt)%nat) by (destruct tgt; cbn; [congruence | lia]).
  unfold fitness_of in *. apply quotient_double_lt; [exact Hn | exact Hb |].
  split; [|apply matches_le].
  unfold Qlt in Hlt. cbn [Qnum Qden] in Hlt.
  apply Z.mul_lt_mono_pos_r in Hlt; lia.
Qed.

(** *** The pool count *)

Lemma finite_count_unit f : 0 <= f -> f <= 1 -> finite_count f.
Proof.
  intros H0 H1. unfold finite_count, float_mul.
  assert (Hz : to_double 0 = 0) by reflexivity.
  assert (Ho : to_double 1 = 1) by (vm_compute; reflexivity).
  assert (Hh : to_double 100 = 100) by (vm_compute; reflexivity).
  pose proof (to_double_mono 0 f H0) as Ha. rewrite Hz in Ha.
  pose proof (to_double_mono f 1 H1) as Hb. rewrite Ho in Hb.
  assert (Hlo : 0 <= to_double (to_double f * 100)).
  { apply Qle_trans with (to_double 0); [rewrite Hz; lra|].
    apply to_double_mono. lra. }
  assert (Hhi : to_double (to_double f * 100) <= 100).
  { apply Qle_trans with (to_double 100); [|rewrite Hh; lra].
    apply to_double_mono. lra. }
  unfold overflows.
  destruct (Qle_bool (2 ^ 1024) (Qabs (to_double (to_double f * 100)))) eqn:Hc;
    [|reflexivity].
  apply Qle_bool_iff in Hc. rewrite Qabs_pos in Hc by exact Hlo.
  assert (100 < 2 ^ 1024) by (vm_compute; reflexivity). lra.
Qed.

Lemma fitness_finite_count tgt pop :
  tgt <> [] -> Forall finite_count (map (fitness_of tgt) pop).
Proof.
  intros Hne. apply Forall_map, Forall_forall. intros member _.
  destruct (fitness_of_bounds tgt member Hne). now apply finite_count_unit.
Qed.

Lemma copies_comp f g : f == g -> copies f = copies g.
Proof.
  intros H. unfold copies, float_mul. now rewrite (to_double_comp f g H).
Qed.

Lemma copies_zero f : f == 0 -> copies f = 0%nat.
Proof. intros H. rewrite (copies_comp f 0 H). reflexivity. Qed.

Lemma copies_one f : f == 1 -> copies f = 100%nat.
Proof. intros H. rewrite (copies_comp f 1 H). vm_compute. reflexivity. Qed.


(** the products that fall on or next to a half, as doubles: 23/40 * 100 is
    a little below 57.5 and 109/200 * 100 a little above 54.5, where the
    exact products are the halves 57.5 and 54.5 and would go to the even
    neighbours 58 and 54; 1/200 * 100, 1/8 * 100 and 3/8 * 100 are the exact
    halves 0.5, 12.5 and 37.5 *)
Lemma copies_examples :
  copies (23 # 40) = 57%nat /\ copies (109 # 200) = 55%nat
  /\ copies (1 # 200) = 0%nat /\ copies (1 # 8) = 12%nat
  /\ copies (3 # 8) = 38%nat /\ copies (1 # 3) = 33%nat
  /\ rint ((23 # 40) * 100) = 58%Z /\ rint ((109 # 200) * 100) = 54%Z.
Proof. vm_compute. repeat split; reflexivity. Qed.

Lemma append_loop member :
  forall n k self pos,
    for_each (seq k n) (fun j =>
      modify (fun self => set_mating_pool (mating_pool self ++ [member]) self))
      self pos
    = Ok tt (set_mating_pool (mating_pool self ++ repeat member n) self) pos.
Proof.
  unfold for_each.
  induction n as [|n IH]; intros k self pos; cbn [seq foldM repeat].
  - unfold ret. rewrite app_nil_r. now destruct self.
  - unfold bind, modify at 1. rewrite IH. cbn [mating_pool set_mating_pool].
    unfold set_mating_pool; cbn. now rewrite <- app_assoc.
Qed.

Lemma skipn_nth_error {A} (l : list A) k x :
  nth_error l k = Some x -> skipn k l = x :: skipn (S k) l.
Proof.
  revert k. induction l as [|y l IH]; intros [|k] H; cbn in *; try discriminate.
  - now inversion H.
  - now apply IH.
Qed.

Lemma create_mating_pool_loop fit :
  forall pop k self pos,
    fitness self = fit ->
    (k + length pop <= length fit)%nat ->
    post (for_each (combine (seq k (length pop)) pop) (fun '(i, member) =>
            fit <- gets fitness ;;
            score <- getitem fit i ;;
            n <- int_rint (float_mul (to_double score) 100) ;;
            for_each (range (Z.to_nat n)) (fun j =>
              modify (fun self =>
                        set_mating_pool (mating_pool self ++ [member]) self))))
      self pos
      (fun _ self' pos' =>
         self' = set_mating_pool (mating_pool self ++ pool_of pop (skipn k fit)) self
         /\ pos' = pos)
      (fun e self' pos' =>
         e = OverflowError /\ pos' = pos
         /\ (exists pool, self' = set_mating_pool pool self)
         /\ ~ Forall finite_count fit).
Proof.
  set (body := fun '(i, member) => _).
  assert (Hok : forall i member f self pos,
             nth_error (fitness self) i = Some f ->
             overflows (float_mul (to_double f) 100) = false ->
             body (i, member) self pos
             = Ok tt (set_mating_pool (mating_pool self ++ repeat member (copies f))
                        self) pos).
  { intros i member f self pos Hf Hfin.
    unfold body, bind, gets, getitem, int_rint.
    rewrite Hf. unfold ret at 1. rewrite Hfin. unfold ret at 1. apply append_loop. }
  assert (Hraise : forall i member f self pos,
             nth_error (fitness self) i = Some f ->
             overflows (float_mul (to_double f) 100) = true ->
             body (i, member) self pos = Raise OverflowError self pos).
  { intros i member f self pos Hf Hinf.
    unfold body, bind, gets, getitem, int_rint.
    rewrite Hf. unfold ret at 1. rewrite Hinf. reflexivity. }
  clearbody body. unfold for_each, post.
  induction pop as [|member pop IH]; intros k self pos Hfit Hlen.
  - cbn. unfold pool_of. cbn. rewrite app_nil_r. split; [now destruct self | reflexivity].
  - cbn [length seq combine foldM]. cbn [length] in Hlen.
    destruct (nth_error fit k) as [f|] eqn:Hf;
      [|apply nth_error_None in Hf; lia].
    destruct (overflows (float_mul (to_double f) 100)) eqn:Hov.
    + rewrite (bind_raise _ _ _ _ _ _ _
                 (Hraise k member f self pos ltac:(congruence) Hov)).
      split; [reflexivity|]. split; [reflexivity|].
      split; [exists (mating_pool self); now destruct self|].
      intros Hall. rewrite Forall_forall in Hall.
      specialize (Hall f (nth_error_In _ _ Hf)). unfold finite_count in Hall.
      congruence.
    + rewrite (bind_eq _ _ _ _ _ _ _
                 (Hok k member f self pos ltac:(congruence) Hov)).
      set (self1 := set_mating_pool (mating_pool self ++ repeat member (copies f)) self).
      specialize (IH (S k) self1 pos Hfit ltac:(lia)).
      destruct (foldM (fun _ x => body x) (combine (seq (S k) (length pop)) pop)
                  tt self1 pos) as [[] self' pos'|e self' pos'].
      * destruct IH as [-> ->]. split; [|reflexivity].
        cbn [mating_pool set_mating_pool self1]. unfold set_mating_pool; cbn.
        rewrite (skipn_nth_error fit k f Hf). unfold pool_of. cbn.
        now rewrite <- app_assoc.
      * destruct IH as (-> & -> & [pool ->] & Hnot).
        split; [reflexivity|]. split; [reflexivity|].
        split; [exists pool; reflexivity | exact Hnot].
Qed.

Lemma create_mating_pool_post self pos :
  length (fitness self) = length (population self) ->
  post create_mating_pool self pos
    (fun _ self' pos' =>
       self' = set_mating_pool (pool_of (population self) (fitness self)) self
       /\ pos' = pos)
    (fun e self' pos' =>
       e = OverflowError /\ pos' = pos
       /\ (exists pool, self' = set_mating_pool pool self)
       /\ ~ Forall finite_count (fitness self)).
Proof.
  intros Hlen. unfold create_mating_pool. step. step. step. step.
  cbn [population set_mating_pool]. unfold range.
  eapply post_weaken;
    [apply (create_mating_pool_loop (fitness self) (population self) 0
              (set_mating_pool [] self) pos eq_refl); cbn; lia | | ].
  - intros [] self' pos' [-> ->]. cbn. auto.
  - intros e self' pos' (-> & -> & [pool ->] & Hnot).
    split; [reflexivity|]. split; [reflexivity|].
    split; [exists pool; reflexivity | exact Hnot].
Qed.

Lemma create_mating_pool_eq self pos :
  length (fitness self) = length (population self) ->
  Forall finite_count (fitness self) ->
  create_mating_pool self pos
  = Ok tt (set_mating_pool (pool_of (population self) (fitness self)) self) pos.
Proof.
  intros Hlen Hfin. pose proof (create_mating_pool_post self pos Hlen) as H.
  unfold post in H.
  destruct (create_mating_pool self pos) as [[] self' pos'|e self' pos'].
  - now destruct H as [-> ->].
  - destruct H as (_ & _ & _ & Hnot). contradiction.
Qed.

(** C6: for a population and a parallel fitness vector, the pool that
    [create_mating_pool] stores when it returns holds, for each individual
    in population order, [rint (f * 100)] copies of it in a row, [f * 100]
    being the product of doubles that the program computes, and the call
    draws nothing; it does return when the scores are in [0, 1]; [rint] is
    the nearest integer with halves going to the even one; fitness 0 gives
    no entry and fitness 1 gives 100. *)
Theorem create_mating_pool_correct self pos :
  length (fitness self) = length (population self) ->
  (Forall (fun f => 0 <= f /\ f <= 1) (fitness self) ->
   create_mating_pool self pos
   = Ok tt (set_mating_pool (pool_of (population self) (fitness self)) self) pos)
  /\ (forall self' pos',
        create_mating_pool self pos = Ok tt self' pos' ->
        self' = set_mating_pool (pool_of (population self) (fitness self)) self
        /\ pos' = pos)
  /\ pool_of [] [] = []
  /\ (forall member pop f fit,
        pool_of (member :: pop) (f :: fit)
        = repeat member (Z.to_nat (rint (float_mul (to_double f) 100)))
          ++ pool_of pop fit)
  /\ (forall q, inject_Z (rint q) - (1 # 2) <= q <= inject_Z (rint q) + (1 # 2))
  /\ (forall q, q - inject_Z (rint q) == 1 # 2 \/ inject_Z (rint q) - q == 1 # 2 ->
                Z.even (rint q) = true)
  /\ (forall f, f == 0 -> Z.to_nat (rint (float_mul (to_double f) 100)) = 0%nat)
  /\ (forall f, f == 1 -> Z.to_nat (rint (float_mul (to_double f) 100)) = 100%nat).
Proof.
  intros Hlen. split.
  - intros Hunit. apply create_mating_pool_eq; [exact Hlen|].
    eapply Forall_impl; [|exact Hunit]. intros f [H0 H1].
    now apply finite_count_unit.
  - split.
    { intros self' pos' E. pose proof (create_mating_pool_post self pos Hlen) as H.
      unfold post in H. rewrite E in H. exact H. }
    split; [reflexivity|]. split; [reflexivity|].
    split; [apply rint_nearest|]. split; [apply rint_half_even|].
    split; [apply copies_zero | apply copies_one].
Qed.

(** ** check_progress *)

Lemma max_from_spec l :
  forall best,
    In (max_from best l) (best :: l)
    /\ forall x, In x (best :: l) -> x <= max_from best l.
Proof.
  induction l as [|y l IH]; intros best; cbn [max_from].
  - split; [now left|]. intros x [->|[]]. apply Qle_refl.
  - destruct (Qlt_le_dec best y) as [Hlt|Hle].
    + destruct (IH y) as [Hin Hmax]. split.
      * right. exact Hin.
      * intros x [->|Hx]; [|now apply Hmax].
        apply Qle_trans with y; [now apply Qlt_le_weak|]. apply Hmax. now left.
    + destruct (IH best) as [Hin Hmax]. split.
      * destruct Hin as [Hin|Hin]; [now left | now right; right].
      * intros x [->|[->|Hx]].
        -- apply Hmax. now left.
        -- apply Qle_trans with best; [exact Hle|]. apply Hmax. now left.
        -- apply Hmax. now right.
Qed.

Lemma index_Some l v :
  forall i, index l v = Some i ->
    exists x, nth_error l i = Some x /\ x == v
      /\ forall j y, (j < i)%nat -> nth_error l j = Some y -> ~ y == v.
Proof.
  induction l as [|x l IH]; intros i H; cbn in H; [discriminate|].
  destruct (Qeq_bool x v) eqn:Hx.
  - inversion H; subst. exists x. split; [reflexivity|]. split.
    + now apply Qeq_bool_iff.
    + intros j y Hj. lia.
  - destruct (index l v) as [i'|] eqn:Hi; [|discriminate].
    inversion H; subst. destruct (IH i' eq_refl) as (x' & Hn & Hv & Hfirst).
    exists x'. split; [exact Hn|]. split; [exact Hv|].
    intros [|j] y Hj Hy; cbn in Hy.
    + inversion Hy; subst. intros Hq. apply Qeq_bool_iff in Hq. congruence.
    + apply (Hfirst j y); [lia | exact Hy].
Qed.

Lemma index_In l v x : In x l -> x == v -> exists i, index l v = Some i.
Proof.
  induction l as [|y l IH]; intros Hin Hv; [destruct Hin|].
  cbn. destruct (Qeq_bool y v) eqn:Hy; [eauto|].
  destruct Hin as [->|Hin].
  - apply Qeq_bool_iff in Hv. congruence.
  - destruct (IH Hin Hv) as [i ->]. cbn. eauto.
Qed.

(** C1: when the fitness vector is that of the population and some
    individual is the target, [check_progress] returns with
    [target_acquired] set and with [closest_target] and [target_population]
    both the target, which stands at the first index [i] whose fitness is
    the maximum. *)
Theorem check_progress_acquires self pos :
  target self <> [] ->
  Forall (fun member => length member = length (target self)) (population self) ->
  fitness self = map (fitness_of (target self)) (population self) ->
  In (target self) (population self) ->
  exists i mx,
    nth_error (population self) i = Some (target self)
    /\ nth_error (fitness self) i = Some mx
    /\ mx == 1
    /\ (forall j f, nth_error (fitness self) j = Some f -> f <= mx)
    /\ (forall j f, (j < i)%nat -> nth_error (fitness self) j = Some f -> f < mx)
    /\ check_progress self pos
       = Ok tt (set_target_population (Some (target self))
                 (set_target_acquired true
                   (set_closest_target (Some (target self))
                     (set_max_fitness (Some mx) self)))) pos.
Proof.
  intros Hne Hshape Hfit Hin.
  rewrite Forall_forall in Hshape.
  set (tgt := target self) in *. set (pop := population self) in *.
  set (one := fitness_of tgt tgt).
  assert (Hone : one == 1) by (now apply fitness_of_one).
  assert (Hle1 : forall f, In f (fitness self) -> f <= 1).
  { intros f Hf. rewrite Hfit in Hf. apply in_map_iff in Hf.
    destruct Hf as (member & <- & _). now apply fitness_of_bounds. }
  assert (Hin1 : In one (fitness self)) by (rewrite Hfit; now apply in_map).
  destruct (fitness self) as [|f0 fit] eqn:Efit; [destruct Hin1|].
  destruct (max_from_spec fit f0) as [Hmin Hmax].
  set (m := max_from f0 fit) in *.
  assert (Hm1 : m == 1).
  { apply Qle_antisym; [now apply Hle1|].
    rewrite <- Hone. now apply Hmax. }
  assert (Hm : m = one).
  { rewrite Hfit in Hmin. apply in_map_iff in Hmin.
    destruct Hmin as (member & Hmem & Hpop).
    assert (member = tgt) as ->; [|now symmetry].
    apply (fitness_of_one tgt member Hne (Hshape _ Hpop)).
    now rewrite Hmem. }
  destruct (index_In (f0 :: fit) m m Hmin (Qeq_refl m)) as [i Hi].
  destruct (index_Some _ _ _ Hi) as (x & Hx & Hxm & Hfirst).
  assert (Hpi : nth_error pop i = Some tgt).
  { rewrite Hfit, nth_error_map in Hx.
    destruct (nth_error pop i) as [member|] eqn:Hp; [|discriminate].
    cbn in Hx. inversion Hx as [Hx']. f_equal.
    apply (fitness_of_one tgt member Hne).
    - apply Hshape. eapply nth_error_In; eauto.
    - rewrite Hx', Hxm. exact Hm1. }
  assert (Hxone : x = one).
  { rewrite Hfit, nth_error_map, Hpi in Hx. cbn in Hx. now inversion Hx. }
  exists i, one. split; [exact Hpi|]. split; [congruence|].
  split; [exact Hone|]. split; [|split].
  - intros j f Hj. rewrite <- Hm. apply Hmax. eapply nth_error_In; eauto.
  - intros j f Hj Hf. rewrite <- Hm.
    destruct (Qle_lt_or_eq _ _ (Hmax f (nth_error_In _ _ Hf))) as [Hlt|Heq];
      [exact Hlt|].
    now destruct (Hfirst j f Hj Hf).
  - unfold check_progress, bind, gets, py_max, py_index, modify, getitem, ret.
    rewrite Efit. cbn [fitness set_max_fitness].
    fold m. rewrite Efit, Hi. cbn [population set_max_fitness].
    fold pop. rewrite Hpi.
    assert (Qeq_bool m 1 = true) as -> by now apply Qeq_bool_iff.
    cbn. subst m. now rewrite Hm.
Qed.

(** ** mutation *)

Section Mutation.

Variable random_state : nat -> N.

Lemma random_sample_range (r : N) :
  0 <= (Z.of_N (r mod 2 ^ 53) # 2 ^ 53) /\ (Z.of_N (r mod 2 ^ 53) # 2 ^ 53) < 1.
Proof.
  assert (Hd : Z.pos (2 ^ 53) = Z.of_N (2 ^ 53)) by reflexivity.
  assert (Hlt : (r mod 2 ^ 53 < 2 ^ 53)%N) by (apply N.mod_lt; discriminate).
  unfold Qle, Qlt. cbn [Qnum Qden]. rewrite Hd.
  generalize dependent (2 ^ 53)%N. intros d _.
  generalize (r mod d)%N. intros x Hlt. lia.
Qed.

Lemma choice_p_rate_0 self pos :
  choice_p random_state [mutate; no_mutate] [0; 1 - 0] self pos
  = Ok no_mutate self (S pos).
Proof.
  assert (H1 : Nat.eqb (length [mutate; no_mutate]) (length [0; 1 - 0]) = true)
    by reflexivity.
  assert (H2 : existsb (fun x => negb (Qle_bool 0 x)) [0; 1 - 0] = false)
    by reflexivity.
  assert (H3 : Qeq_bool (fold_right Qplus 0 [0; 1 - 0]) 1 = true)
    by reflexivity.
  unfold choice_p. rewrite H1, H2, H3. cbn [negb].
  cbv [bind random_sample draw ret]. f_equal.
  destruct (random_sample_range (random_state pos)) as [Hlo Hhi].
  set (u := Z.of_N (random_state pos mod 2 ^ 53) # 2 ^ 53) in *.
  unfold cumsum. cbn [cumsum_from searchsorted_right].
  assert (Qle_bool (0 + 0) u = true) as ->
    by (apply Qle_bool_iff; lra).
  destruct (Qle_bool (0 + 0 + (1 - 0)) u) eqn:Hc; [|reflexivity].
  apply Qle_bool_iff in Hc. lra.
Qed.

Lemma mutation_member_rate_0 member self pos :
  forall n k dna_out,
    (k + n <= length member)%nat ->
    foldM (fun dna_out i =>
        mutation <- choice_p random_state [mutate; no_mutate] [0; 1 - 0] ;;
        match mutation with
        | mutate =>
            tgt <- gets target ;;
            dna <- generate_random_dna random_state 1 tgt ;;
            ret (dna_out ++ dna)
        | no_mutate =>
            m_i <- getitem member i ;;
            ret (dna_out ++ [m_i])
        end)
      (seq k n) dna_out self pos
    = Ok (dna_out ++ firstn n (skipn k member)) self (pos + n)%nat.
Proof.
  intros n. revert pos.
  induction n as [|n IH]; intros pos k dna_out Hk; cbn [seq foldM].
  - cbn. unfold ret. now rewrite app_nil_r, Nat.add_0_r.
  - destruct (nth_error member k) as [c|] eqn:Hc;
      [|apply nth_error_None in Hc; lia].
    rewrite (bind_eq _ _ _ _ (dna_out ++ [c]) self (S pos)).
    + rewrite IH by lia. rewrite (skipn_nth_error member k c Hc).
      cbn [firstn]. rewrite <- app_assoc. cbn. f_equal. lia.
    + rewrite (bind_eq _ _ _ _ _ _ _ (choice_p_rate_0 self pos)).
      unfold bind, getitem. now rewrite Hc.
Qed.

Lemma mutation_loop_rate_0 self :
  forall pop pos new_population,
    foldM (fun new_population member =>
        dna_out <- foldM (fun dna_out i =>
            mutation <- choice_p random_state [mutate; no_mutate] [0; 1 - 0] ;;
            match mutation with
            | mutate =>
                tgt <- gets target ;;
                dna <- generate_random_dna random_state 1 tgt ;;
                ret (dna_out ++ dna)
            | no_mutate =>
                m_i <- getitem member i ;;
                ret (dna_out ++ [m_i])
            end)
          (range (length member)) [] ;;
        ret (new_population ++ [dna_out]))
      pop new_population self pos
    = Ok (new_population ++ pop) self (pos + length (concat pop))%nat.
Proof.
  induction pop as [|member pop IH]; intros pos new_population; cbn [foldM].
  - cbn. unfold ret. now rewrite app_nil_r, Nat.add_0_r.
  - rewrite (bind_eq _ _ _ _ (new_population ++ [member]) self
               (pos + length member)%nat).
    + rewrite IH. cbn [concat]. rewrite length_app, <- app_assoc. cbn.
      f_equal. lia.
    + unfold range.
      rewrite (bind_eq _ _ _ _ _ _ _
                 (mutation_member_rate_0 member self pos (length member) 0 []
                    (le_n _))).
      cbn [skipn app]. now rewrite firstn_all.
Qed.

(** C9: [mutation] at rate 0 returns and leaves the object, and so the
    population, exactly as it was; it only consumes one random draw per
    character. *)
Theorem mutation_rate_0_identity self pos :
  mutation random_state 0 self pos
  = Ok tt self (pos + length (concat (population self)))%nat.
Proof.
  unfold mutation.
  rewrite (bind_eq _ _ _ _ _ _ _ (eq_refl : gets population self pos = Ok _ _ _)).
  rewrite (bind_eq _ _ _ _ _ _ _ (mutation_loop_rate_0 self (population self) pos [])).
  cbn [app]. unfold modify. now destruct self.
Qed.

End Mutation.

(** ** reproduction *)

Lemma crossover_loop parentA parentB tgt self pos :
  forall n k babyA babyB,
    (k + n <= length parentA)%nat -> (k + n <= length parentB)%nat ->
    (k + n <= length tgt)%nat ->
    foldM (fun '(babyA, babyB) i =>
             a_i <- getitem parentA i ;;
             t_i <- getitem tgt i ;;
             babyA <- (if Ascii.eqb a_i t_i
                       then ret (babyA ++ [a_i])
                       else b_i <- getitem parentB i ;; ret (babyA ++ [b_i])) ;;
             b_i <- getitem parentB i ;;
             babyB <- (if Ascii.eqb b_i t_i
                       then ret (babyB ++ [b_i])
                       else a_i <- getitem parentA i ;; ret (babyB ++ [a_i])) ;;
             ret (babyA, babyB))
          (seq k n) (babyA, babyB) self pos
    = Ok (babyA ++ map (cross parentA parentB tgt) (seq k n),
          babyB ++ map (cross parentB parentA tgt) (seq k n)) self pos.
Proof.
  induction n as [|n IH]; intros k babyA babyB HA HB HT; cbn [seq foldM map].
  - unfold ret. now rewrite !app_nil_r.
  - destruct (nth_error parentA k) as [a|] eqn:Ha;
      [|apply nth_error_None in Ha; lia].
    destruct (nth_error parentB k) as [b|] eqn:Hb;
      [|apply nth_error_None in Hb; lia].
    destruct (nth_error tgt k) as [t|] eqn:Ht;
      [|apply nth_error_None in Ht; lia].
    assert (HcA : cross parentA parentB tgt k = if Ascii.eqb a t then a else b).
    { unfold cross, agree. rewrite Ha, Ht.
      rewrite (nth_error_nth _ _ _ Ha), (nth_error_nth _ _ _ Hb). reflexivity. }
    assert (HcB : cross parentB parentA tgt k = if Ascii.eqb b t then b else a).
    { unfold cross, agree. rewrite Hb, Ht.
      rewrite (nth_error_nth _ _ _ Ha), (nth_error_nth _ _ _ Hb). reflexivity. }
    rewrite HcA, HcB.
    rewrite (bind_eq _ _ _ _
               (babyA ++ [if Ascii.eqb a t then a else b],
                babyB ++ [if Ascii.eqb b t then b else a]) self pos).
    + rewrite IH by lia. now rewrite <- !app_assoc.
    + cbv [bind getitem ret]. rewrite Ha, Ht, Hb.
      destruct (Ascii.eqb a t), (Ascii.eqb b t); cbv [bind getitem ret];
        rewrite ?Ha, ?Hb; reflexivity.
Qed.

Lemma baby_length p q tgt : length (baby p q tgt) = length tgt.
Proof. unfold baby, range. now rewrite length_map, length_seq. Qed.

Lemma baby_nth_error p q tgt i :
  (i < length tgt)%nat -> length p = length tgt -> length q = length tgt ->
  nth_error (baby p q tgt) i
  = if agree p tgt i then nth_error p i else nth_error q i.
Proof.
  intros Hi Hp Hq. unfold baby, range.
  rewrite nth_error_map, nth_error_seq.
  assert (Nat.ltb i (length tgt) = true) as -> by (apply Nat.ltb_lt; lia).
  cbn. unfold cross.
  destruct (agree p tgt i); symmetry; apply nth_error_nth'; lia.
Qed.


Section Reproduction.

Variable random_state : nat -> N.

Lemma choice_inv {A} (a : list A) self pos x self' pos' :
  choice random_state a self pos = Ok x self' pos' ->
  In x a /\ self' = self /\ pos' = S pos.
Proof.
  unfold choice. destruct a as [|d l] eqn:Ea; [discriminate|].
  assert (Hlen : length a <> 0%nat) by (rewrite Ea; discriminate).
  rewrite <- Ea. unfold bind, draw, ret. intros H.
  injection H as Hx Hs Hp. subst x self' pos'. split; [|auto].
  apply nth_In.
  assert (Hlt : (random_state pos mod N.of_nat (length a) < N.of_nat (length a))%N)
    by (apply N.mod_lt; lia).
  revert Hlt. generalize (random_state pos mod N.of_nat (length a))%N.
  intros r Hlt. lia.
Qed.

Lemma choice_nonempty {A} (a : list A) self pos :
  a <> [] -> exists x, choice random_state a self pos = Ok x self (S pos).
Proof.
  destruct a as [|d l]; [congruence|]. intros _. unfold choice.
  unfold bind, draw, ret. eauto.
Qed.

Lemma other_parents_inv (pool : list str) parentA parentB :
  In parentB (filter (fun member => negb (str_eqb member parentA)) pool) ->
  In parentB pool /\ parentB <> parentA.
Proof.
  rewrite filter_In. intros [Hin Hne]. split; [exact Hin|].
  intros ->. now rewrite str_eqb_refl in Hne.
Qed.

Lemma reproduction_pair_eq self pos parentA parentB :
  choice random_state (mating_pool self) self pos = Ok parentA self (S pos) ->
  choice random_state
    (filter (fun member => negb (str_eqb member parentA)) (mating_pool self))
    self (S pos) = Ok parentB self (S (S pos)) ->
  (length (target self) <= length parentA)%nat ->
  (length (target self) <= length parentB)%nat ->
  reproduction_pair random_state self pos
  = Ok tt (set_population
             (population self ++ [baby parentA parentB (target self);
                                  baby parentB parentA (target self)]) self)
       (S (S pos)).
Proof.
  intros HA HB HlA HlB. unfold reproduction_pair.
  rewrite (bind_eq _ _ _ _ _ _ _ (eq_refl : gets mating_pool self pos = Ok _ _ _)).
  rewrite (bind_eq _ _ _ _ _ _ _ HA).
  rewrite (bind_eq _ _ _ _ _ _ _ (eq_refl : gets mating_pool self _ = Ok _ _ _)).
  cbv zeta. rewrite (bind_eq _ _ _ _ _ _ _ HB).
  rewrite (bind_eq _ _ _ _ _ _ _ (eq_refl : gets target self _ = Ok _ _ _)).
  unfold range.
  rewrite (bind_eq _ _ _ _ _ _ _
             (crossover_loop parentA parentB (target self) self (S (S pos))
                (length (target self)) 0 [] [] HlA HlB (le_n _))).
  cbv [bind modify]. cbn [fst snd app population set_population].
  unfold set_population; cbn. now rewrite <- app_assoc.
Qed.

(** C7: when [parentA] is the draw from the mating pool and [parentB] the
    draw from the pool entries whose value differs from [parentA]'s, both
    of the target's length N, one pass of the reproduction loop appends
    [babyA] and [babyB] with, at every position i < N, babyA[i] = parentA[i]
    if that is target[i] and parentB[i] otherwise, and the same for [babyB]
    with the parents exchanged; [parentB] is a pool entry other than
    [parentA]. *)
Theorem reproduction_pair_correct self pos parentA parentB :
  choice random_state (mating_pool self) self pos = Ok parentA self (S pos) ->
  choice random_state
    (filter (fun member => negb (str_eqb member parentA)) (mating_pool self))
    self (S pos) = Ok parentB self (S (S pos)) ->
  length parentA = length (target self) ->
  length parentB = length (target self) ->
  exists babyA babyB,
    reproduction_pair random_state self pos
    = Ok tt (set_population (population self ++ [babyA; babyB]) self) (S (S pos))
    /\ length babyA = length (target self)
    /\ length babyB = length (target self)
    /\ (forall i, (i < length (target self))%nat ->
          nth_error babyA i
          = (if agree parentA (target self) i
             then nth_error parentA i else nth_error parentB i)
          /\ nth_error babyB i
             = (if agree parentB (target self) i
                then nth_error parentB i else nth_error parentA i))
    /\ In parentA (mating_pool self)
    /\ In parentB (mating_pool self)
    /\ parentB <> parentA.
Proof.
  intros HA HB HlA HlB.
  exists (baby parentA parentB (target self)), (baby parentB parentA (target self)).
  split; [apply reproduction_pair_eq; auto; lia|].
  split; [apply baby_length|]. split; [apply baby_length|].
  split.
  - intros i Hi. split; apply baby_nth_error; auto.
  - destruct (choice_inv _ _ _ _ _ _ HA) as [HinA _].
    destruct (choice_inv _ _ _ _ _ _ HB) as [HinB _].
    destruct (other_parents_inv _ _ _ HinB). auto.
Qed.

Lemma degenerate_other_parents (pool : list str) parentA :
  (forall m m', In m pool -> In m' pool -> m = m') ->
  In parentA pool ->
  filter (fun member => negb (str_eqb member parentA)) pool = [].
Proof.
  intros Hsame HA.
  destruct (filter _ pool) as [|b l] eqn:Hf; [reflexivity|].
  assert (Hb : In b (filter (fun member => negb (str_eqb member parentA)) pool))
    by (rewrite Hf; now left).
  destruct (other_parents_inv _ _ _ Hb) as [Hin Hne].
  destruct Hne. now apply Hsame.
Qed.

(** C3 (as the code has it): with room for at least one pair, a mating pool
    that is empty or holds a single value makes [reproduction] raise the
    sampling [ValueError], after it has emptied the population; there is no
    fallback. *)
Theorem reproduction_degenerate_raises self pos :
  (2 <= populationsize self)%Z ->
  (forall m m', In m (mating_pool self) -> In m' (mating_pool self) -> m = m') ->
  exists pos',
    reproduction random_state self pos
    = Raise ValueError (set_population [] self) pos'.
Proof.
  intros HP Hsame. unfold reproduction.
  cbv [bind modify gets]. cbn [populationsize set_population].
  destruct (Z.to_nat (populationsize self ÷ 2)) as [|n] eqn:Hn.
  - assert (1 <= populationsize self ÷ 2)%Z
      by (apply Z.quot_le_lower_bound; lia).
    lia.
  - unfold range, for_each. cbn [seq foldM].
    set (self0 := set_population [] self).
    assert (Hpool : mating_pool self0 = mating_pool self) by reflexivity.
    assert (Hraise : exists pos',
               reproduction_pair random_state self0 pos
               = Raise ValueError self0 pos').
    { unfold reproduction_pair.
      rewrite (bind_eq _ _ _ _ _ _ _
                 (eq_refl : gets mating_pool self0 pos = Ok _ _ _)).
      rewrite Hpool.
      set (pool := mating_pool self) in *. clearbody pool.
      destruct pool as [|d l].
      - exists pos. reflexivity.
      - destruct (choice_nonempty (d :: l) self0 pos ltac:(discriminate))
          as [parentA HA].
        rewrite (bind_eq _ _ _ _ _ _ _ HA).
        rewrite (bind_eq _ _ _ _ _ _ _
                   (eq_refl : gets mating_pool self0 _ = Ok _ _ _)).
        cbv zeta. rewrite Hpool.
        rewrite (degenerate_other_parents (d :: l) parentA).
        + exists (S pos). reflexivity.
        + exact Hsame.
        + now destruct (choice_inv _ _ _ _ _ _ HA). }
    destruct Hraise as [pos' Hraise]. exists pos'.
    now rewrite (bind_raise _ _ _ _ _ _ _ Hraise).
Qed.

End Reproduction.

(** ** Invariants of the population *)

Lemma baby_well_formed p q tgt :
  well_formed tgt p -> well_formed tgt q -> well_formed tgt (baby p q tgt).
Proof.
  intros [Hlp Hcp] [Hlq Hcq]. split; [apply baby_length|].
  unfold baby, range. apply Forall_map, Forall_forall.
  intros i Hi. apply in_seq in Hi. rewrite Forall_forall in Hcp, Hcq.
  unfold cross. destruct (agree p tgt i).
  - apply Hcp, nth_In. lia.
  - apply Hcq, nth_In. lia.
Qed.

Lemma pool_of_incl pop :
  forall fit member, In member (pool_of pop fit) -> In member pop.
Proof.
  unfold pool_of.
  induction pop as [|m pop IH]; intros [|f fit] member; cbn; try tauto.
  rewrite in_app_iff. intros [H|H].
  - left. now apply repeat_spec in H.
  - right. now apply (IH fit).
Qed.

Section Invariants.

Variable random_state : nat -> N.

Lemma choice_size_post {A} (a : list A) self :
  forall size pos,
    post (choice_size random_state a size) self pos
      (fun xs self' _ =>
         self' = self /\ length xs = size /\ Forall (fun x => In x a) xs)
      (fun _ _ _ => a = [] /\ size <> 0%nat).
Proof.
  induction size as [|size IH]; intros pos; cbn [choice_size].
  - step. auto.
  - step. unfold post at 1.
    destruct (choice random_state a self pos) as [x self1 pos1|e self1 pos1] eqn:Hc.
    + destruct (choice_inv _ _ _ _ _ _ _ Hc) as (Hin & -> & ->).
      step. call IH.
      * intros xs self' pos' (-> & Hlen & Hall). step. cbn. auto.
      * intros e self' pos' [Ha _]. split; [exact Ha | discriminate].
    + destruct a; [auto | discriminate].
Qed.

Lemma generate_random_dna_post N tgt self pos :
  post (generate_random_dna random_state N tgt) self pos
    (fun dna self' _ =>
       self' = self /\ length dna = N /\ Forall (fun c => In c tgt) dna)
    (fun _ _ _ => tgt = [] /\ N <> 0%nat).
Proof.
  unfold generate_random_dna. step. call choice_size_post.
  - intros nums self' pos' (-> & Hlen & Hall). step.
    split; [reflexivity|]. split; [now rewrite length_map|].
    apply Forall_map. eapply Forall_impl; [|exact Hall].
    cbn. intros n Hn. apply in_map_iff in Hn. destruct Hn as (c & <- & Hc).
    now rewrite ascii_nat_embedding.
  - intros e self' pos' [Hnil HN]. split; [|exact HN].
    now destruct tgt.
Qed.

Lemma generate_initial_population_post self pos :
  post (generate_initial_population random_state) self pos
    (fun _ self' _ =>
       exists pop, self' = set_population pop self
         /\ length pop = Z.to_nat (populationsize self)
         /\ Forall (well_formed (target self)) pop)
    (fun _ _ _ => False).
Proof.
  unfold generate_initial_population.
  step. step. step. step. step. step. cbn [target populationsize set_population].
  eapply post_weaken;
    [apply (post_for_each _ _
              (fun done self' _ =>
                 exists pop, self' = set_population pop self
                   /\ length pop = length done
                   /\ Forall (well_formed (target self)) pop)) | | ].
  - exists []. repeat split; auto.
  - intros done x rest self1 pos1 Hdone (pop & -> & Hlen & Hwf).
    step. step. cbn [target set_population]. step.
    call generate_random_dna_post.
    + intros dna self' pos' (-> & Hd & Hc). step.
      exists (pop ++ [dna]). cbn [population set_population].
      split; [reflexivity|]. split.
      * rewrite !length_app. cbn. lia.
      * apply Forall_app. split; [exact Hwf|]. constructor; [|constructor].
        split; assumption.
    + intros e self' pos' [Hnil HN]. rewrite Hnil in HN. now apply HN.
  - cbv beta. intros [] self' pos' (pop & -> & Hlen & Hwf).
    exists pop. unfold range in Hlen. rewrite length_seq in Hlen. auto.
  - auto.
Qed.

Lemma choice_p_post {A} (a : list A) p self pos :
  post (choice_p random_state a p) self pos
    (fun _ self' _ => self' = self) (fun _ _ _ => True).
Proof.
  unfold choice_p. destruct a as [|d l]; [exact I|].
  destruct (negb _); [exact I|].
  destruct (existsb _ p); [exact I|].
  destruct (negb _); [exact I|].
  reflexivity.
Qed.

Lemma getitem_post {A} (l : list A) i self pos :
  post (getitem l i) self pos
    (fun c self' pos' => self' = self /\ pos' = pos /\ In c l)
    (fun _ _ _ => True).
Proof.
  unfold getitem. destruct (nth_error l i) as [c|] eqn:Hc; [|exact I].
  step. repeat split. eapply nth_error_In; eauto.
Qed.

(** what [mutation] may turn a member into *)
Lemma mutation_post mutation_rate self pos :
  post (mutation random_state mutation_rate) self pos
    (fun _ self' _ =>
       exists pop, self' = set_population pop self
         /\ Forall2 (fun member dna =>
                       length dna = length member
                       /\ Forall (fun c => In c member \/ In c (target self)) dna)
                    (population self) pop)
    (fun _ _ _ => True).
Proof.
  unfold mutation. step. step. step.
  eapply post_weaken;
    [apply (post_foldM _ _
              (fun done new_population self' _ =>
                 self' = self
                 /\ Forall2 (fun member dna =>
                       length dna = length member
                       /\ Forall (fun c => In c member \/ In c (target self)) dna)
                     done new_population)
              (fun _ _ _ => True)) | | ].
  - split; [reflexivity | constructor].
  - intros done member rest new_population self1 pos1 Hdone [-> Hall].
    step.
    eapply post_weaken;
      [apply (post_foldM _ _
                (fun idone dna_out self' _ =>
                   self' = self
                   /\ length dna_out = length idone
                   /\ Forall (fun c => In c member \/ In c (target self)) dna_out)
                (fun _ _ _ => True))
      | | ].
    + repeat split. constructor.
    + intros idone i irest dna_out self2 pos2 Hidone (-> & Hlen & Hchars).
      step. call choice_p_post; [|auto].
      intros [|] self' pos' ->.
      * step. step. step. call generate_random_dna_post; [|auto].
        intros dna self' pos3 (-> & Hd & Hc). step.
        split; [reflexivity|]. split.
        -- rewrite !length_app, Hd. cbn. lia.
        -- apply Forall_app. split; [exact Hchars|].
           eapply Forall_impl; [|exact Hc]. intros c Hin. now right.
      * step. call getitem_post; [|auto].
        intros c self' pos3 (-> & -> & Hc). step.
        split; [reflexivity|]. split.
        -- rewrite !length_app. cbn. lia.
        -- apply Forall_app. split; [exact Hchars|]. constructor; auto.
    + intros dna_out self' pos' (-> & Hlen & Hchars). step.
      split; [reflexivity|]. apply Forall2_app; [exact Hall|].
      constructor; [|constructor]. split; [|exact Hchars].
      unfold range in Hlen. now rewrite length_seq in Hlen.
    + auto.
  - intros new_population self' pos' [-> Hall]. step.
    exists new_population. auto.
  - auto.
Qed.

Lemma mutation_well_formed tgt pop pop' :
  Forall2 (fun member dna =>
             length dna = length member
             /\ Forall (fun c => In c member \/ In c tgt) dna) pop pop' ->
  Forall (well_formed tgt) pop ->
  length pop' = length pop /\ Forall (well_formed tgt) pop'.
Proof.
  induction 1 as [|member dna pop pop' [Hlen Hchars] Hrest IH]; intros Hwf.
  - split; [reflexivity | constructor].
  - inversion Hwf as [|? ? [Hl Hc] Hwf']; subst.
    destruct (IH Hwf') as [IHl IHw]. split; [cbn; lia|].
    constructor; [|exact IHw]. split; [lia|].
    rewrite Forall_forall in Hc |- *. rewrite Forall_forall in Hchars.
    intros c Hin. destruct (Hchars c Hin); auto.
Qed.

Lemma reproduction_pair_post self pos :
  Forall (well_formed (target self)) (mating_pool self) ->
  post (reproduction_pair random_state) self pos
    (fun _ self' _ =>
       exists babyA babyB,
         self' = set_population (population self ++ [babyA; babyB]) self
         /\ well_formed (target self) babyA
         /\ well_formed (target self) babyB)
    (fun _ _ _ => True).
Proof.
  intros Hpool. rewrite Forall_forall in Hpool.
  destruct (choice random_state (mating_pool self) self pos)
    as [parentA self1 pos1|e self1 pos1] eqn:HA.
  - destruct (choice_inv _ _ _ _ _ _ _ HA) as (HinA & -> & ->).
    destruct (choice random_state
                (filter (fun member => negb (str_eqb member parentA))
                   (mating_pool self)) self (S pos))
      as [parentB self2 pos2|e self2 pos2] eqn:HB.
    + destruct (choice_inv _ _ _ _ _ _ _ HB) as (HinB & -> & ->).
      apply other_parents_inv in HinB. destruct HinB as [HinB _].
      destruct (Hpool _ HinA) as [HlA HcA]. destruct (Hpool _ HinB) as [HlB HcB].
      eapply post_of_ok.
      * apply (reproduction_pair_eq random_state self pos parentA parentB);
          auto; lia.
      * do 2 eexists. split; [reflexivity|].
        split; apply baby_well_formed; split; auto.
    + unfold post, reproduction_pair.
      rewrite (bind_eq _ _ _ _ _ _ _
                 (eq_refl : gets mating_pool self pos = Ok _ _ _)).
      rewrite (bind_eq _ _ _ _ _ _ _ HA).
      rewrite (bind_eq _ _ _ _ _ _ _
                 (eq_refl : gets mating_pool self _ = Ok _ _ _)).
      cbv zeta. now rewrite (bind_raise _ _ _ _ _ _ _ HB).
  - unfold post, reproduction_pair.
    rewrite (bind_eq _ _ _ _ _ _ _
               (eq_refl : gets mating_pool self pos = Ok _ _ _)).
    now rewrite (bind_raise _ _ _ _ _ _ _ HA).
Qed.

Lemma reproduction_post self pos :
  Forall (well_formed (target self)) (mating_pool self) ->
  post (reproduction random_state) self pos
    (fun _ self' _ =>
       exists pop, self' = set_population pop self
         /\ length pop = (2 * Z.to_nat (populationsize self ÷ 2))%nat
         /\ Forall (well_formed (target self)) pop)
    (fun _ _ _ => True).
Proof.
  intros Hpool. unfold reproduction. step. step. step. step.
  cbn [populationsize set_population].
  eapply post_weaken;
    [apply (post_for_each _ _
              (fun done self' _ =>
                 exists pop, self' = set_population pop self
                   /\ length pop = (2 * length done)%nat
                   /\ Forall (well_formed (target self)) pop)
              (fun _ _ _ => True)) | | ].
  - exists []. repeat split; auto.
  - intros done x rest self1 pos1 Hdone (pop & -> & Hlen & Hwf).
    call reproduction_pair_post; [exact Hpool | | auto].
    intros [] self' pos' (babyA & babyB & -> & HwA & HwB).
    exists (pop ++ [babyA; babyB]). cbn [population set_population target] in *.
    split; [reflexivity|]. split.
    + rewrite !length_app. cbn. lia.
    + apply Forall_app. split; [exact Hwf|].
      constructor; [exact HwA|]. constructor; [exact HwB|]. constructor.
  - intros [] self' pos' (pop & -> & Hlen & Hwf).
    exists pop. unfold range in Hlen. rewrite length_seq in Hlen. auto.
  - auto.
Qed.

Lemma check_progress_post self pos :
  post check_progress self pos
    (fun _ self' _ => same_population self self')
    (fun e _ _ =>
       (e = ValueError /\ fitness self = [])
       \/ (e = IndexError /\ (length (population self) < length (fitness self))%nat)).
Proof.
  unfold post, check_progress, bind, gets, py_max, py_index, modify, getitem.
  destruct (fitness self) as [|f0 fit] eqn:Efit; [left; auto|].
  unfold ret at 1. cbn [fitness set_max_fitness]. rewrite Efit.
  destruct (max_from_spec fit f0) as [Hin _].
  destruct (index_In (f0 :: fit) _ _ Hin (Qeq_refl _)) as [i Hi].
  rewrite Hi. unfold ret at 1. cbn [population set_max_fitness].
  destruct (index_Some _ _ _ Hi) as (x & Hx & _).
  destruct (nth_error (population self) i) as [closest|] eqn:Hc.
  - unfold ret at 1.
    destruct (Qeq_bool (max_from f0 fit) 1); cbn; unfold same_population; cbn;
      rewrite Efit; auto.
  - right. split; [reflexivity|].
    apply nth_error_None in Hc.
    assert (i < length (f0 :: fit))%nat by (apply nth_error_Some; congruence).
    unfold raise. lia.
Qed.

Lemma new_generation_post mutation_rate self pos :
  target self <> [] ->
  Forall (well_formed (target self)) (mating_pool self) ->
  post (new_generation random_state mutation_rate) self pos
    (fun _ self' _ =>
       target self' = target self
       /\ populationsize self' = populationsize self
       /\ length (population self')
          = (2 * Z.to_nat (populationsize self ÷ 2))%nat
       /\ Forall (well_formed (target self)) (population self')
       /\ Forall (well_formed (target self)) (mating_pool self'))
    (fun _ _ _ => True).
Proof.
  intros Hne Hpool. unfold new_generation.
  step. call reproduction_post; [exact Hpool | | auto].
  intros [] self1 pos1 (pop1 & -> & Hl1 & Hw1).
  step. call mutation_post; [|auto].
  intros [] self2 pos2 (pop2 & -> & Hmut).
  cbn [population target set_population] in Hmut.
  destruct (mutation_well_formed _ _ _ Hmut Hw1) as [Hl2 Hw2].
  set (self2 := set_population pop2 (set_population pop1 self)).
  assert (Hshape : Forall (fun member => length member = length (target self2))
                     (population self2)).
  { eapply Forall_impl; [|exact Hw2]. now intros member []. }
  step. eapply post_of_ok; [apply (generate_fitness_eq self2 pos2 Hne Hshape)|].
  set (self3 := set_fitness _ self2).
  step. call check_progress_post; [|auto].
  intros [] self4 pos4 (Ht & HP & Hpop & Hfit & Hmp).
  step. eapply post_of_ok.
  { apply create_mating_pool_eq.
    - rewrite Hfit, Hpop. cbn. apply length_map.
    - rewrite Hfit. cbn. apply fitness_finite_count. exact Hne. }
  step. cbn [target populationsize population mating_pool
             set_generation set_mating_pool].
  rewrite Ht, HP, Hpop. cbn [target populationsize population self3 self2
                              set_fitness set_population].
  split; [reflexivity|]. split; [reflexivity|].
  split; [exact (eq_trans Hl2 Hl1)|]. split; [exact Hw2|].
  apply Forall_forall. intros member Hin. apply pool_of_incl in Hin.
  rewrite Forall_forall in Hw2. now apply Hw2.
Qed.

Lemma init_post T P pos :
  T <> [] ->
  post (fun self pos => __init__ random_state T P pos)
    (mkEvolution T P [] [] [] 1 false None None None) pos
    (fun _ self' _ =>
       target self' = T
       /\ populationsize self' = P
       /\ length (population self') = Z.to_nat P
       /\ Forall (well_formed T) (population self')
       /\ Forall (well_formed T) (mating_pool self'))
    (fun _ _ _ => (P <= 0)%Z).
Proof.
  intros Hne. unfold post at 1, __init__.
  set (self0 := mkEvolution T P [] [] [] 1 false None None None).
  change (post (generate_initial_population random_state ;;
                generate_fitness ;; create_mating_pool ;; check_progress)
            self0 pos
            (fun _ self' _ =>
               target self' = T
               /\ populationsize self' = P
               /\ length (population self') = Z.to_nat P
               /\ Forall (well_formed T) (population self')
               /\ Forall (well_formed T) (mating_pool self'))
            (fun _ _ _ => (P <= 0)%Z)).
  step. call generate_initial_population_post; [|tauto].
  intros [] self1 pos1 (pop & -> & Hlen & Hwf).
  cbn [target populationsize self0] in Hlen, Hwf.
  set (self1 := set_population pop self0).
  assert (Hshape : Forall (fun member => length member = length (target self1))
                     (population self1)).
  { eapply Forall_impl; [|exact Hwf]. now intros member []. }
  step. eapply post_of_ok; [apply (generate_fitness_eq self1 pos1 Hne Hshape)|].
  set (self2 := set_fitness _ self1).
  step. eapply post_of_ok.
  { apply create_mating_pool_eq.
    - cbn. apply length_map.
    - cbn. apply fitness_finite_count. exact Hne. }
  call check_progress_post.
  - intros [] self4 pos4 (Ht & HP & Hpop & Hfit & Hmp).
    rewrite Ht, HP, Hpop, Hmp. cbn.
    repeat split; auto.
    apply Forall_forall. intros member Hin. apply pool_of_incl in Hin.
    rewrite Forall_forall in Hwf. now apply Hwf.
  - intros e self4 pos4 [[_ Hnil]|[_ Hlt]].
    + cbn in Hnil. destruct pop; [cbn in Hlen; lia | discriminate].
    + cbn in Hlt. rewrite length_map in Hlt. lia.
Qed.

Lemma reachable_invariant T P self :
  T <> [] ->
  reachable random_state T P self ->
  target self = T
  /\ populationsize self = P
  /\ (length (population self) = Z.to_nat P
      \/ length (population self) = (2 * Z.to_nat (P ÷ 2))%nat)
  /\ Forall (well_formed T) (population self)
  /\ Forall (well_formed T) (mating_pool self).
Proof.
  intros Hne. induction 1 as [pos self pos' Hinit|self pos rate self' pos' _ IH Hstep].
  - pose proof (init_post T P pos Hne) as Hpost.
    unfold post in Hpost. rewrite Hinit in Hpost. tauto.
  - destruct IH as (Ht & HP & _ & _ & Hpool). subst T P.
    pose proof (new_generation_post rate self pos Hne Hpool) as Hpost.
    unfold post in Hpost. rewrite Hstep in Hpost.
    destruct Hpost as (Ht' & HP' & Hl & Hw & Hp'). rewrite Ht', HP'. tauto.
Qed.

Lemma init_returns T P pos :
  T <> [] -> (1 <= P)%Z ->
  exists self pos', __init__ random_state T P pos = Ok tt self pos'.
Proof.
  intros Hne HP. pose proof (init_post T P pos Hne) as Hpost.
  unfold post in Hpost.
  destruct (__init__ random_state T P pos) as [[] self pos'|e self pos'].
  - eauto.
  - lia.
Qed.


(** C10: for a non-empty target, every character of every individual of
    every reachable population occurs in the target. *)
Theorem population_alphabet T P self :
  T <> [] ->
  reachable random_state T P self ->
  Forall (fun member => Forall (fun c => In c T) member) (population self).
Proof.
  intros Hne Hreach.
  destruct (reachable_invariant T P self Hne Hreach) as (_ & _ & _ & Hwf & _).
  eapply Forall_impl; [|exact Hwf]. now intros member [].
Qed.

(** C2 (as the code has it): [Evolution(target, populationsize)] validates
    nothing.  An empty target makes it raise [ZeroDivisionError] from the
    fitness division when the size is at least 1; a size of 0 or less makes
    it raise [ValueError] from [max] of the empty fitness list; a non-empty
    target with any size of at least 1, odd sizes and 1 included, is
    accepted and the population has that many individuals. *)
Theorem construction_outcomes T P pos :
  (T = [] -> (1 <= P)%Z ->
     exists self' pos',
       __init__ random_state T P pos = Raise ZeroDivisionError self' pos')
  /\ ((P <= 0)%Z ->
        exists self' pos',
          __init__ random_state T P pos = Raise ValueError self' pos')
  /\ (T <> [] -> (1 <= P)%Z ->
        exists self pos',
          __init__ random_state T P pos = Ok tt self pos'
          /\ populationsize self = P
          /\ length (population self) = Z.to_nat P).
Proof.
  split; [|split].
  - intros -> HP. unfold __init__.
    set (self0 := mkEvolution [] P [] [] [] 1 false None None None).
    destruct (post_ok _ _ _ _ (generate_initial_population_post self0 pos))
      as ([] & self1 & pos1 & Hgen & pop & -> & Hlen & _).
    rewrite (bind_eq _ _ _ _ _ _ _ Hgen).
    destruct pop as [|member pop]; [cbn in Hlen; lia|].
    do 2 eexists. apply bind_raise. reflexivity.
  - intros HP. unfold __init__.
    destruct P as [|p|p]; try lia; do 2 eexists; reflexivity.
  - intros Hne HP. pose proof (init_post T P pos Hne) as Hpost.
    unfold post in Hpost.
    destruct (__init__ random_state T P pos) as [[] self pos'|e self pos'].
    + exists self, pos'. tauto.
    + lia.
Qed.

End Invariants.

(** ** Concrete runs *)

(** C2, counterexample: sizes 3 and 1 are accepted. *)
Lemma odd_population_size_accepted :
  (exists self pos',
     __init__ (tape []) (lit "A") 3 0 = Ok tt self pos'
     /\ populationsize self = 3%Z
     /\ population self = [lit "A"; lit "A"; lit "A"])
  /\ (exists self pos',
        __init__ (tape []) (lit "A") 1 0 = Ok tt self pos'
        /\ populationsize self = 1%Z
        /\ population self = [lit "A"]).
Proof.
  split; do 2 eexists; (split; [vm_compute; reflexivity|]); split; reflexivity.
Qed.

(** C3, counterexample: [Evolution("X", 2)] has a pool of 200 copies of
    "X", and [Evolution("AB", 2)] drawn as "BA", "BA" has an empty pool; on
    both, [reproduction] raises [ValueError]. *)
Lemma reproduction_crashes_on_degenerate_pool :
  (exists self pos,
     __init__ (tape []) (lit "X") 2 0 = Ok tt self pos
     /\ mating_pool self = repeat (lit "X") 200
     /\ reproduction (tape []) self pos
        = Raise ValueError (set_population [] self) (S pos))
  /\ (exists self pos,
        __init__ (tape [1; 0; 1; 0]%N) (lit "AB") 2 0 = Ok tt self pos
        /\ mating_pool self = []
        /\ reproduction (tape [1; 0; 1; 0]%N) self pos
           = Raise ValueError (set_population [] self) pos).
Proof.
  split; do 2 eexists; (split; [vm_compute; reflexivity|]);
    split; vm_compute; reflexivity.
Qed.

(** C8, the failing runs.  [Evolution("AB", 2)] drawn as "AB", "AA" has
    acquired the target at construction; [evolution_rounds(1)] still runs a
    generation on it, which replaces the population and moves the generation
    counter to 2.  [Evolution("X", 4)] has acquired the target at
    construction as well; [evolution_rounds(1)] runs [new_generation] on it,
    which empties the population and raises [ValueError]. *)
Theorem evolution_rounds_steps_after_acquisition :
  let rs := tape [0; 1; 0; 0; 0; 0; 2 ^ 52; 2 ^ 52; 2 ^ 52; 2 ^ 52]%N in
  (exists self pos self' pos',
     __init__ rs (lit "AB") 2 0 = Ok tt self pos
     /\ target_acquired self = true
     /\ target_population self = Some (lit "AB")
     /\ population self = [lit "AB"; lit "AA"]
     /\ generation self = 1%Z
     /\ evolution_rounds rs 1 (1 # 100) self pos = Ok tt self' pos'
     /\ new_generation rs (1 # 100) self pos = Ok tt self' pos'
     /\ population self' = [lit "AB"; lit "AB"]
     /\ generation self' = 2%Z)
  /\ (exists self pos,
        __init__ (tape []) (lit "X") 4 0 = Ok tt self pos
        /\ target_acquired self = true
        /\ population self = repeat (lit "X") 4
        /\ evolution_rounds (tape []) 1 (1 # 100) self pos
           = Raise ValueError (set_population [] self) (S pos)).
Proof.
  split.
  - do 4 eexists. split; [vm_compute; reflexivity|].
    split; [reflexivity|]. split; [reflexivity|]. split; [reflexivity|].
    split; [reflexivity|]. split; [vm_compute; reflexivity|].
    split; [vm_compute; reflexivity|]. split; reflexivity.
  - do 2 eexists. split; [vm_compute; reflexivity|].
    split; [reflexivity|]. split; [reflexivity|]. vm_compute. reflexivity.
Qed.

(** ** The theorems at work on concrete objects *)

Lemma check_progress_acquires_witness :
  let self := an_evolution (lit "AB") 2 [lit "AA"; lit "AB"] [1 # 2; 2 # 2] [] in
  exists i mx,
    nth_error (population self) i = Some (target self)
    /\ nth_error (fitness self) i = Some mx
    /\ mx == 1
    /\ (forall j f, nth_error (fitness self) j = Some f -> f <= mx)
    /\ (forall j f, (j < i)%nat -> nth_error (fitness self) j = Some f -> f < mx)
    /\ check_progress self O
       = Ok tt (set_target_population (Some (target self))
                 (set_target_acquired true
                   (set_closest_target (Some (target self))
                     (set_max_fitness (Some mx) self)))) 0%nat.
Proof.
  intros self.
  apply (check_progress_acquires self O).
  - discriminate.
  - repeat constructor.
  - reflexivity.
  - right. left. reflexivity.
Defined.

Lemma generate_fitness_correct_witness :
  let self := an_evolution (lit "AB") 2 [lit "AA"; lit "AB"] [] [] in
  generate_fitness self O
  = Ok tt (set_fitness (map (fitness_of (target self)) (population self)) self) 0%nat
  /\ forall member, In member (population self) ->
       0 <= fitness_of (target self) member
       /\ fitness_of (target self) member <= 1
       /\ (fitness_of (target self) member == 1 <-> member = target self).
Proof.
  intros self.
  apply (generate_fitness_correct self O).
  - discriminate.
  - repeat constructor.
Defined.

Lemma create_mating_pool_correct_witness :
  let self := an_evolution (lit "AB") 2 [lit "AA"; lit "AB"] [1 # 2; 2 # 2] [] in
  create_mating_pool self O
  = Ok tt (set_mating_pool (repeat (lit "AA") 50 ++ repeat (lit "AB") 100) self)
      0%nat.
Proof.
  intros self.
  assert (Hunit : Forall (fun f => 0 <= f /\ f <= 1) (fitness self)).
  { repeat constructor; unfold Qle; cbn; lia. }
  exact (proj1 (create_mating_pool_correct self O eq_refl) Hunit).
Defined.

Lemma reproduction_pair_correct_witness :
  let self := an_evolution (lit "AB") 2 [] [] [lit "AA"; lit "BB"] in
  exists babyA babyB,
    reproduction_pair (tape []) self O
    = Ok tt (set_population (population self ++ [babyA; babyB]) self) 2%nat
    /\ length babyA = 2%nat
    /\ length babyB = 2%nat
    /\ (forall i, (i < 2)%nat ->
          nth_error babyA i
          = (if agree (lit "AA") (lit "AB") i
             then nth_error (lit "AA") i else nth_error (lit "BB") i)
          /\ nth_error babyB i
             = (if agree (lit "BB") (lit "AB") i
                then nth_error (lit "BB") i else nth_error (lit "AA") i))
    /\ In (lit "AA") (mating_pool self)
    /\ In (lit "BB") (mating_pool self)
    /\ lit "BB" <> lit "AA".
Proof.
  intros self.
  apply (reproduction_pair_correct (tape []) self O (lit "AA") (lit "BB"));
    reflexivity.
Defined.

Lemma reproduction_degenerate_raises_witness :
  let self := an_evolution (lit "X") 2 [lit "X"; lit "X"] [1; 1]
                [lit "X"; lit "X"; lit "X"] in
  exists pos',
    reproduction (tape []) self O = Raise ValueError (set_population [] self) pos'.
Proof.
  intros self.
  apply (reproduction_degenerate_raises (tape []) self O).
  - cbn. lia.
  - cbn. intros m m' Hm Hm'.
    repeat (destruct Hm as [Hm|Hm]; [|]); try contradiction;
      repeat (destruct Hm' as [Hm'|Hm']; [|]); try contradiction; congruence.
Defined.

Lemma construction_outcomes_witness :
  (exists self' pos',
     __init__ (tape []) [] 2 O = Raise ZeroDivisionError self' pos')
  /\ (exists self' pos',
        __init__ (tape []) (lit "AB") 0 O = Raise ValueError self' pos')
  /\ (exists self pos',
        __init__ (tape []) (lit "AB") 3 O = Ok tt self pos'
        /\ populationsize self = 3%Z
        /\ length (population self) = 3%nat).
Proof.
  split; [|split].
  - apply (proj1 (construction_outcomes (tape []) [] 2 O)); [reflexivity | lia].
  - apply (proj1 (proj2 (construction_outcomes (tape []) (lit "AB") 0 O))). lia.
  - apply (proj2 (proj2 (construction_outcomes (tape []) (lit "AB") 3 O)));
      [discriminate | lia].
Defined.


Lemma population_alphabet_witness :
  let rs := tape [0; 1; 0; 0; 0; 0; 2 ^ 52; 2 ^ 52; 2 ^ 52; 2 ^ 52]%N in
  exists self,
    reachable rs (lit "AB") 2 self
    /\ generation self = 2%Z
    /\ Forall (fun member => Forall (fun c => In c (lit "AB")) member)
         (population self).
Proof.
  intros rs.
  assert (Hreach : { self | reachable rs (lit "AB") 2 self /\ generation self = 2%Z }).
  { eexists. split.
    - eapply reach_step with (pos := 4%nat) (mutation_rate := 1 # 100).
      + eapply reach_init with (pos := 0%nat). vm_compute. reflexivity.
      + vm_compute. reflexivity.
    - reflexivity. }
  destruct Hreach as [self [Hreach Hgen]].
  exists self. split; [exact Hreach|]. split; [exact Hgen|].
  apply (population_alphabet rs (lit "AB") 2 self); [discriminate | exact Hreach].
Defined.

(** ** More on the sampler *)

Section Sampler.

Variable random_state : nat -> N.

Lemma choice_size_eq {A} (a : list A) (d d' : A) (l : list A) self :
  a = d :: l ->
  forall size pos,
    choice_size random_state a size self pos
    = Ok (map (fun k => nth (N.to_nat (random_state k mod N.of_nat (length a))) a d')
            (seq pos size)) self (pos + size)%nat.
Proof.
  intros ->. set (a := d :: l).
  assert (Hlen : length a <> 0%nat) by discriminate.
  induction size as [|size IH]; intros pos; cbn [choice_size seq map].
  - unfold ret. f_equal. lia.
  - assert (Hc : choice random_state a self pos
                 = Ok (nth (N.to_nat (random_state pos mod N.of_nat (length a))) a d')
                      self (S pos)).
    { unfold choice, a at 1. unfold bind, draw, ret. f_equal.
      apply nth_indep.
      assert (Hlt : (random_state pos mod N.of_nat (length a) < N.of_nat (length a))%N)
        by (apply N.mod_lt; lia).
      revert Hlt. generalize (random_state pos mod N.of_nat (length a))%N.
      intros r Hlt. lia. }
    rewrite (bind_eq _ _ _ _ _ _ _ Hc).
    rewrite (bind_eq _ _ _ _ _ _ _ (IH (S pos))).
    unfold ret. f_equal. lia.
Qed.

(** X1: [generate_random_dna(N, target)] on a non-empty target returns the N
    characters that the next N draws select in the target (duplicates of the
    target kept, so a frequent character is drawn more often), leaves the
    object alone and moves the random source by N; on an empty target it
    raises [ValueError] as soon as N > 0. *)
Theorem generate_random_dna_spec (N : nat) (tgt : str) self pos :
  (tgt <> [] ->
     exists dna,
       generate_random_dna random_state N tgt self pos = Ok dna self (pos + N)%nat
       /\ dna = map (fun k => drawn_char tgt (random_state k)) (seq pos N)
       /\ length dna = N
       /\ Forall (fun c => In c tgt) dna)
  /\ (tgt = [] -> N <> 0%nat ->
        generate_random_dna random_state N tgt self pos = Raise ValueError self pos).
Proof.
  split.
  - intros Hne. destruct tgt as [|c0 tgt'] eqn:Et; [congruence|]. rewrite <- Et.
    assert (Hlen : length tgt <> 0%nat) by (rewrite Et; discriminate).
    exists (map (fun k => drawn_char tgt (random_state k)) (seq pos N)).
    split; [|split; [reflexivity|split]].
    + unfold generate_random_dna.
      rewrite (bind_eq _ _ _ _ _ _ _
                 (choice_size_eq (map nat_of_ascii tgt) (nat_of_ascii c0)
                    (nat_of_ascii zero) (map nat_of_ascii tgt') self
                    ltac:(rewrite Et; reflexivity) N pos)).
      unfold ret. f_equal. rewrite map_map. apply map_ext. intros k.
      rewrite length_map, map_nth, ascii_nat_embedding. reflexivity.
    + now rewrite length_map, length_seq.
    + apply Forall_map, Forall_forall. intros k _. unfold drawn_char.
      apply nth_In.
      assert (Hlt : (random_state k mod N.of_nat (length tgt) < N.of_nat (length tgt))%N)
        by (apply N.mod_lt; lia).
      revert Hlt. generalize (random_state k mod N.of_nat (length tgt))%N.
      intros r Hlt. lia.
  - intros -> HN. destruct N as [|n]; [congruence|]. reflexivity.
Qed.

End Sampler.

(** ** What the methods change and what they leave *)

Lemma keeps_refl self : keeps self self.
Proof. repeat split; auto. Qed.

Lemma keeps_trans a b c : keeps a b -> keeps b c -> keeps a c.
Proof.
  intros (Ht & HP & Ha) (Ht' & HP' & Ha'). repeat split; try congruence; auto.
Qed.

Lemma getitem_frame {A} (l : list A) i self pos :
  post (getitem l i) self pos
    (fun c self' pos' => self' = self /\ pos' = pos /\ nth_error l i = Some c)
    (fun e self' pos' =>
       self' = self /\ pos' = pos /\ e = IndexError /\ (length l <= i)%nat).
Proof.
  unfold post, getitem. destruct (nth_error l i) as [c|] eqn:Hc.
  - unfold ret. auto.
  - unfold raise. repeat split. now apply nth_error_None.
Qed.

Lemma generate_fitness_frame self pos :
  post generate_fitness self pos
    (fun _ self' pos' =>
       exists fit, self' = set_fitness fit self /\ pos' = pos
         /\ length fit = length (population self))
    (fun e self' pos' =>
       exists fit, self' = set_fitness fit self /\ pos' = pos
         /\ (e = IndexError \/ e = ZeroDivisionError)).
Proof.
  unfold generate_fitness. step. step. step. step.
  cbn [population set_fitness].
  eapply post_weaken;
    [apply (post_for_each _ _
              (fun done self' pos' =>
                 exists fit, self' = set_fitness fit self /\ pos' = pos
                   /\ length fit = length done)
              (fun e self' pos' =>
                 exists fit, self' = set_fitness fit self /\ pos' = pos
                   /\ (e = IndexError \/ e = ZeroDivisionError))) | | ].
  - exists []. auto.
  - intros done member rest self1 pos1 Hdone (fit & -> & -> & Hlen).
    step. step. step.
    eapply post_weaken;
      [apply (post_foldM _ _
                (fun _ (_ : nat) self' pos' =>
                   self' = set_fitness fit self /\ pos' = pos)
                (fun e self' pos' =>
                   self' = set_fitness fit self /\ pos' = pos /\ e = IndexError))
      | | ].
    + auto.
    + intros idone i irest score self2 pos2 Hidone [-> ->].
      step. call getitem_frame.
      * intros m_i self' pos' (-> & -> & Hm). step. call getitem_frame.
        -- intros t_i self' pos' (-> & -> & Ht). step. auto.
        -- intros e self' pos' (-> & -> & -> & _). auto.
      * intros e self' pos' (-> & -> & -> & _). auto.
    + intros score self' pos' [-> ->]. step. step. step.
      unfold truediv. destruct (length (target (set_fitness fit self))).
      * step. exists fit. auto.
      * step. step. exists (fit ++ [Z.of_nat score # Pos.of_nat (S n)]).
        cbn [fitness set_fitness]. split; [reflexivity|]. split; [reflexivity|].
        rewrite !length_app. cbn. lia.
    + intros e self' pos' (-> & -> & ->). exists fit. auto.
  - intros [] self' pos' (fit & -> & -> & Hlen). exists fit. auto.
  - auto.
Qed.

Lemma create_mating_pool_frame self pos :
  post create_mating_pool self pos
    (fun _ self' pos' =>
       exists pool, self' = set_mating_pool pool self /\ pos' = pos)
    (fun e self' pos' =>
       exists pool, self' = set_mating_pool pool self /\ pos' = pos
         /\ (e = IndexError \/ e = OverflowError)).
Proof.
  unfold create_mating_pool. step. step. step. step.
  cbn [population set_mating_pool].
  eapply post_weaken;
    [apply (post_for_each _ _
              (fun _ self' pos' =>
                 exists pool, self' = set_mating_pool pool self /\ pos' = pos)
              (fun e self' pos' =>
                 exists pool, self' = set_mating_pool pool self /\ pos' = pos
                   /\ (e = IndexError \/ e = OverflowError))) | | ].
  - exists []. auto.
  - intros done [i member] rest self1 pos1 Hdone (pool & -> & ->).
    step. step. step. call getitem_frame.
    + intros score self' pos' (-> & -> & Hs). cbv zeta.
      step. unfold int_rint.
      destruct (overflows (float_mul (to_double score) 100)).
      * step. exists pool. auto.
      * step. eapply post_of_ok; [apply append_loop|].
        eexists. split; [|reflexivity]. reflexivity.
    + intros e self' pos' (-> & -> & -> & _). exists pool. auto.
  - intros [] self' pos' (pool & -> & ->). exists pool. auto.
  - auto.
Qed.

Lemma check_progress_eq self pos f0 fit i closest :
  fitness self = f0 :: fit ->
  index (f0 :: fit) (max_from f0 fit) = Some i ->
  nth_error (population self) i = Some closest ->
  check_progress self pos
  = Ok tt (progress_checked (max_from f0 fit) closest self) pos.
Proof.
  intros Hfit Hi Hc.
  unfold check_progress, bind, gets, py_max, py_index, modify, getitem.
  rewrite Hfit. unfold ret at 1. cbn [fitness set_max_fitness].
  rewrite Hfit, Hi. unfold ret at 1. cbn [population set_max_fitness].
  rewrite Hc. unfold ret at 1. unfold progress_checked.
  destruct (Qeq_bool (max_from f0 fit) 1); reflexivity.
Qed.

Lemma check_progress_frame self pos :
  post check_progress self pos
    (fun _ self' pos' =>
       pos' = pos /\ keeps self self' /\ same_population self self'
       /\ generation self' = generation self)
    (fun e self' pos' =>
       pos' = pos /\ keeps self self' /\ same_population self self'
       /\ generation self' = generation self).
Proof.
  unfold post, check_progress, bind, gets, py_max, py_index, modify, getitem.
  destruct (fitness self) as [|f0 fit] eqn:Efit.
  - unfold raise. split; [reflexivity|].
    split; [apply keeps_refl|]. unfold same_population. tauto.
  - unfold ret at 1. cbn [fitness set_max_fitness]. rewrite Efit.
    destruct (index (f0 :: fit) (max_from f0 fit)) as [i|].
    + unfold ret at 1. cbn [population set_max_fitness].
      destruct (nth_error (population self) i) as [closest|].
      * unfold ret at 1.
        destruct (Qeq_bool (max_from f0 fit) 1); cbn;
          unfold keeps, same_population; cbn; rewrite ?Efit; tauto.
      * unfold raise. unfold keeps, same_population; cbn; rewrite ?Efit; tauto.
    + unfold raise. unfold keeps, same_population; cbn; rewrite ?Efit; tauto.
Qed.


Lemma check_progress_full self pos :
  post check_progress self pos
    (fun _ self' pos' =>
       pos' = pos
       /\ exists f0 fit i closest,
            fitness self = f0 :: fit
            /\ index (f0 :: fit) (max_from f0 fit) = Some i
            /\ nth_error (population self) i = Some closest
            /\ self' = progress_checked (max_from f0 fit) closest self)
    (fun e self' pos' =>
       pos' = pos /\ keeps self self' /\ generation self' = generation self
       /\ ((e = ValueError /\ fitness self = [] /\ self' = self)
           \/ (e = IndexError
               /\ (length (population self) < length (fitness self))%nat))).
Proof.
  unfold post, check_progress, bind, gets, py_max, py_index, modify, getitem.
  destruct (fitness self) as [|f0 fit] eqn:Efit.
  - unfold raise. split; [reflexivity|]. split; [apply keeps_refl|].
    split; [reflexivity|]. left. auto.
  - unfold ret at 1. cbn [fitness set_max_fitness]. rewrite Efit.
    destruct (max_from_spec fit f0) as [Hin _].
    destruct (index_In (f0 :: fit) _ _ Hin (Qeq_refl _)) as [i Hi].
    rewrite Hi. unfold ret at 1. cbn [population set_max_fitness].
    destruct (index_Some _ _ _ Hi) as (x & Hx & _).
    destruct (nth_error (population self) i) as [closest|] eqn:Hc.
    + unfold ret at 1.
      destruct (Qeq_bool (max_from f0 fit) 1) eqn:Hq; cbn;
        (split; [reflexivity|]); exists f0, fit, i, closest;
        unfold progress_checked; rewrite Hq; repeat split; auto.
    + unfold raise. split; [reflexivity|].
      split; [unfold keeps; cbn; tauto|]. split; [reflexivity|]. right.
      split; [reflexivity|]. apply nth_error_None in Hc.
      assert (i < length (f0 :: fit))%nat by (apply nth_error_Some; congruence).
      lia.
Qed.

Lemma progress_checked_keeps m closest self :
  keeps self (progress_checked m closest self)
  /\ same_population self (progress_checked m closest self)
  /\ generation (progress_checked m closest self) = generation self
  /\ max_fitness (progress_checked m closest self) = Some m
  /\ closest_target (progress_checked m closest self) = Some closest
  /\ (Qeq_bool m 1 = true ->
      target_acquired (progress_checked m closest self) = true
      /\ target_population (progress_checked m closest self) = Some closest)
  /\ (Qeq_bool m 1 = false ->
      target_acquired (progress_checked m closest self) = target_acquired self
      /\ target_population (progress_checked m closest self)
         = target_population self).
Proof.
  unfold progress_checked, keeps, same_population.
  destruct (Qeq_bool m 1); cbn; repeat split; auto; discriminate.
Qed.

Lemma seq_split_index n a i b : seq 0 n = a ++ i :: b -> i = length a.
Proof.
  intros H.
  assert (Hlen : (length a < n)%nat).
  { apply (f_equal (@length nat)) in H.
    rewrite length_seq, length_app in H. cbn in H. lia. }
  pose proof (@seq_nth n 0%nat (length a) 0%nat Hlen) as Hn.
  rewrite H, app_nth2, Nat.sub_diag in Hn by lia. cbn in Hn. lia.
Qed.

Section Frames.

Variable random_state : nat -> N.

Lemma choice_frame {A} (a : list A) self pos :
  post (choice random_state a) self pos
    (fun x self' pos' => self' = self /\ pos' = S pos /\ In x a)
    (fun e self' pos' => self' = self /\ pos' = pos /\ e = ValueError /\ a = []).
Proof.
  unfold post.
  destruct (choice random_state a self pos) as [x self' pos'|e self' pos'] eqn:Hc.
  - destruct (choice_inv _ _ _ _ _ _ _ Hc) as (Hin & -> & ->). auto.
  - unfold choice in Hc. destruct a; [|discriminate].
    unfold raise in Hc. inversion Hc; subst. auto.
Qed.

Lemma generate_random_dna_frame N tgt self pos :
  post (generate_random_dna random_state N tgt) self pos
    (fun dna self' pos' =>
       self' = self /\ pos' = (pos + N)%nat /\ length dna = N
       /\ Forall (fun c => In c tgt) dna)
    (fun e self' pos' => self' = self /\ pos' = pos /\ e = ValueError /\ tgt = []).
Proof.
  destruct tgt as [|c0 tgt'] eqn:Et.
  - destruct N as [|n]; unfold post; cbn.
    + repeat split; auto.
    + auto.
  - rewrite <- Et. unfold generate_random_dna.
    eapply post_of_ok.
    + rewrite (bind_eq _ _ _ _ _ _ _
                 (choice_size_eq random_state (map nat_of_ascii tgt)
                    (nat_of_ascii c0) (nat_of_ascii zero) (map nat_of_ascii tgt')
                    self ltac:(rewrite Et; reflexivity) N pos)).
      reflexivity.
    + split; [reflexivity|]. split; [reflexivity|].
      split; [now rewrite !length_map, length_seq|].
      apply Forall_map, Forall_map, Forall_forall. intros k _.
      rewrite length_map, map_nth, ascii_nat_embedding.
      apply nth_In.
      assert (Hlen : length tgt <> 0%nat) by (rewrite Et; discriminate).
      assert (Hlt : (random_state k mod N.of_nat (length tgt) < N.of_nat (length tgt))%N)
        by (apply N.mod_lt; lia).
      revert Hlt. generalize (random_state k mod N.of_nat (length tgt))%N.
      intros r Hlt. lia.
Qed.

Lemma choice_p_frame {A} (a : list A) p self pos :
  post (choice_p random_state a p) self pos
    (fun _ self' pos' => self' = self /\ pos' = S pos)
    (fun e self' pos' => self' = self /\ pos' = pos /\ e = ValueError).
Proof.
  unfold post, choice_p. destruct a as [|d l]; [unfold raise; auto|].
  destruct (negb _); [unfold raise; auto|].
  destruct (existsb _ p); [unfold raise; auto|].
  destruct (negb _); [unfold raise; auto|].
  cbv [bind random_sample draw ret]. auto.
Qed.

Lemma choice_p_rate_frame mutation_rate self pos :
  post (choice_p random_state [mutate; no_mutate] [mutation_rate; 1 - mutation_rate])
    self pos
    (fun _ self' pos' =>
       self' = self /\ pos' = S pos /\ 0 <= mutation_rate /\ mutation_rate <= 1)
    (fun e self' pos' =>
       self' = self /\ pos' = pos /\ e = ValueError
       /\ (mutation_rate < 0 \/ 1 < mutation_rate)).
Proof.
  unfold post, choice_p. cbn [length Nat.eqb negb existsb orb].
  destruct (Qle_bool 0 mutation_rate) eqn:H0; cbn [negb orb].
  - apply Qle_bool_iff in H0.
    destruct (Qle_bool 0 (1 - mutation_rate)) eqn:H1; cbn [negb orb].
    + apply Qle_bool_iff in H1.
      assert (Qeq_bool (fold_right Qplus 0 [mutation_rate; 1 - mutation_rate]) 1
              = true) as ->
        by (apply Qeq_bool_iff; cbn [fold_right]; ring).
      cbn [negb]. cbv [bind random_sample draw ret].
      repeat split; auto. lra.
    + unfold raise. repeat split. right.
      destruct (Qlt_le_dec 1 mutation_rate) as [Hlt|Hle]; [exact Hlt|].
      assert (Qle_bool 0 (1 - mutation_rate) = true)
        by (apply Qle_bool_iff; lra).
      congruence.
  - unfold raise. repeat split. left.
    destruct (Qlt_le_dec mutation_rate 0) as [Hlt|Hle]; [exact Hlt|].
    assert (Qle_bool 0 mutation_rate = true) by (now apply Qle_bool_iff).
    congruence.
Qed.

Lemma reproduction_pair_frame self pos :
  post (reproduction_pair random_state) self pos
    (fun _ self' pos' =>
       exists babyA babyB,
         self' = set_population (population self ++ [babyA; babyB]) self
         /\ pos' = S (S pos)
         /\ length babyA = length (target self)
         /\ length babyB = length (target self))
    (fun e self' pos' => self' = self /\ (e = ValueError \/ e = IndexError)).
Proof.
  unfold reproduction_pair. step. step. step. call choice_frame.
  - intros parentA self' pos' (-> & -> & HinA). step. step. cbv zeta.
    step. call choice_frame.
    + intros parentB self' pos' (-> & -> & HinB). step. step. step.
      eapply post_weaken;
        [apply (post_foldM _ _
                  (fun done (babies : str * str) self' pos' =>
                     self' = self /\ pos' = S (S pos)
                     /\ length (fst babies) = length done
                     /\ length (snd babies) = length done)
                  (fun e self' pos' => self' = self /\ e = IndexError)) | | ].
      * auto.
      * intros done i rest [babyA babyB] self1 pos1 Hdone (-> & -> & HlA & HlB).
        cbn [fst snd] in HlA, HlB. cbv beta iota.
        step. call getitem_frame.
        -- intros a_i self' pos' (-> & -> & Ha). step. call getitem_frame.
           ++ intros t_i self' pos' (-> & -> & Ht). step.
              assert (Hnext : forall babyA', length babyA' = length (done ++ [i]) ->
                        post (b_i <- getitem parentB i ;;
                              babyB0 <- (if Ascii.eqb b_i t_i
                                         then ret (babyB ++ [b_i])
                                         else a_i0 <- getitem parentA i ;;
                                              ret (babyB ++ [a_i0])) ;;
                              ret (babyA', babyB0)) self (S (S pos))
                          (fun (babies : str * str) self' pos' =>
                             self' = self /\ pos' = S (S pos)
                             /\ length (fst babies) = length (done ++ [i])
                             /\ length (snd babies) = length (done ++ [i]))
                          (fun e self' pos' => self' = self /\ e = IndexError)).
              { intros babyA' HlA'. step. call getitem_frame.
                - intros b_i self' pos' (-> & -> & Hb). step.
                  assert (HlB' : forall c, length (babyB ++ [c]) = length (done ++ [i]))
                    by (intros c; rewrite !length_app; cbn; lia).
                  destruct (Ascii.eqb b_i t_i).
                  + step. step. cbn [fst snd]. auto.
                  + step. call getitem_frame.
                    * intros a_i' self' pos' (-> & -> & Ha'). step. step.
                      cbn [fst snd]. auto.
                    * intros e self' pos' (-> & -> & -> & _). auto.
                - intros e self' pos' (-> & -> & -> & _). auto. }
              assert (HlA' : forall c, length (babyA ++ [c]) = length (done ++ [i]))
                by (intros c; rewrite !length_app; cbn; lia).
              destruct (Ascii.eqb a_i t_i).
              ** step. apply Hnext, HlA'.
              ** step. call getitem_frame.
                 --- intros b_i self' pos' (-> & -> & Hb). step.
                     apply Hnext, HlA'.
                 --- intros e self' pos' (-> & -> & -> & _). auto.
           ++ intros e self' pos' (-> & -> & -> & _). auto.
        -- intros e self' pos' (-> & -> & -> & _). auto.
      * intros [babyA babyB] self' pos' (-> & -> & HlA & HlB).
        cbn [fst snd] in HlA, HlB. unfold range in HlA, HlB.
        rewrite length_seq in HlA, HlB.
        step. step. step. cbn [fst snd population set_population].
        exists babyA, babyB. split; [|auto].
        unfold set_population; cbn. now rewrite <- app_assoc.
      * intros e self' pos' [-> ->]. auto.
    + intros e self' pos' (-> & -> & -> & _). auto.
  - intros e self' pos' (-> & -> & -> & _). auto.
Qed.

Lemma reproduction_frame self pos :
  post (reproduction random_state) self pos
    (fun _ self' pos' =>
       exists pop, self' = set_population pop self
         /\ pos' = (pos + 2 * Z.to_nat (populationsize self ÷ 2))%nat
         /\ length pop = (2 * Z.to_nat (populationsize self ÷ 2))%nat
         /\ Forall (fun member => length member = length (target self)) pop)
    (fun e self' pos' =>
       (exists pop, self' = set_population pop self)
       /\ (e = ValueError \/ e = IndexError)).
Proof.
  unfold reproduction. step. step. step. step.
  cbn [populationsize set_population].
  eapply post_weaken;
    [apply (post_for_each _ _
              (fun done self' pos' =>
                 exists pop, self' = set_population pop self
                   /\ pos' = (pos + 2 * length done)%nat
                   /\ length pop = (2 * length done)%nat
                   /\ Forall (fun member => length member = length (target self)) pop)
              (fun e self' pos' =>
                 (exists pop, self' = set_population pop self)
                 /\ (e = ValueError \/ e = IndexError))) | | ].
  - exists []. repeat split; auto.
  - intros done x rest self1 pos1 Hdone (pop & -> & -> & Hlen & Hall).
    call reproduction_pair_frame.
    + intros [] self' pos' (babyA & babyB & -> & -> & HlA & HlB).
      cbn [population set_population target] in *.
      exists (pop ++ [babyA; babyB]). split; [reflexivity|].
      rewrite !length_app. cbn [length]. split; [lia|]. split; [lia|].
      apply Forall_app. split; [exact Hall|].
      constructor; [exact HlA|]. constructor; [exact HlB|]. constructor.
    + intros e self' pos' [-> He]. split; [exists pop; reflexivity | exact He].
  - intros [] self' pos' (pop & -> & -> & Hlen & Hall).
    unfold range in *. rewrite length_seq in *. exists pop. auto.
  - auto.
Qed.

End Frames.


Lemma seq_split_lt n a i b : seq 0 n = a ++ i :: b -> (i < n)%nat.
Proof.
  intros H. rewrite (seq_split_index n a i b H).
  apply (f_equal (@length nat)) in H.
  rewrite length_seq, length_app in H. cbn in H. lia.
Qed.

Section MutationFrame.

Variable random_state : nat -> N.

Lemma mutation_frame mutation_rate self pos :
  post (mutation random_state mutation_rate) self pos
    (fun _ self' pos' =>
       exists pop, self' = set_population pop self
         /\ Forall2 (mutant_of (target self)) (population self) pop)
    (fun e self' pos' =>
       self' = self /\ e = ValueError
       /\ (mutation_rate < 0 \/ 1 < mutation_rate \/ target self = [])).
Proof.
  unfold mutation. step. step. step.
  eapply post_weaken;
    [apply (post_foldM _ _
              (fun done new_population self' pos' =>
                 self' = self
                 /\ Forall2 (mutant_of (target self)) done new_population)
              (fun e self' pos' =>
                 self' = self /\ e = ValueError
                 /\ (mutation_rate < 0 \/ 1 < mutation_rate \/ target self = [])))
    | | ].
  - split; [reflexivity | constructor].
  - intros done member rest new_population self1 pos1 Hdone [-> Hall].
    step.
    eapply post_weaken;
      [apply (post_foldM _ _
                (fun idone dna_out self' pos' =>
                   self' = self
                   /\ length dna_out = length idone
                   /\ forall j c, nth_error dna_out j = Some c ->
                        nth_error member j = Some c \/ In c (target self))
                (fun e self' pos' =>
                   self' = self /\ e = ValueError
                   /\ (mutation_rate < 0 \/ 1 < mutation_rate \/ target self = [])))
      | | ].
    + split; [reflexivity|]. split; [reflexivity|].
      intros [|j] c Hj; discriminate.
    + intros idone i irest dna_out self2 pos2 Hidone (-> & Hlen & Hchars).
      pose proof (seq_split_index _ _ _ _ Hidone) as Hi.
      pose proof (seq_split_lt _ _ _ _ Hidone) as Hilt.
      step. call choice_p_rate_frame.
      * intros [|] self' pos' (-> & -> & _ & _).
        -- step. step. step. call generate_random_dna_frame.
           ++ intros dna self' pos3 (-> & -> & Hd & Hc). step.
              split; [reflexivity|]. split.
              ** rewrite !length_app, Hd. cbn. lia.
              ** intros j c Hj.
                 destruct (Nat.lt_ge_cases j (length dna_out)) as [Hlt|Hge].
                 --- rewrite nth_error_app1 in Hj by exact Hlt. now apply Hchars.
                 --- rewrite nth_error_app2 in Hj by exact Hge. right.
                     rewrite Forall_forall in Hc. apply Hc.
                     eapply nth_error_In; eauto.
           ++ intros e self' pos3 (-> & _ & -> & Ht). auto.
        -- step. call getitem_frame.
           ++ intros m_i self' pos3 (-> & -> & Hm). step.
              split; [reflexivity|]. split.
              ** rewrite !length_app. cbn. lia.
              ** intros j c Hj.
                 destruct (Nat.lt_ge_cases j (length dna_out)) as [Hlt|Hge].
                 --- rewrite nth_error_app1 in Hj by exact Hlt. now apply Hchars.
                 --- rewrite nth_error_app2 in Hj by exact Hge.
                     destruct (j - length dna_out)%nat as [|k] eqn:Hk;
                       [|destruct k; discriminate].
                     cbn in Hj. inversion Hj; subst c. left.
                     assert (j = i) as -> by lia. exact Hm.
           ++ intros e self' pos3 (_ & _ & _ & Hle). lia.
      * intros e self' pos' (-> & _ & -> & Hr). tauto.
    + intros dna_out self' pos' (-> & Hlen & Hchars). step.
      split; [reflexivity|]. apply Forall2_app; [exact Hall|].
      constructor; [|constructor]. split; [|exact Hchars].
      unfold range in Hlen. now rewrite length_seq in Hlen.
    + auto.
  - intros new_population self' pos' [-> Hall]. step.
    exists new_population. auto.
  - auto.
Qed.

End MutationFrame.


Lemma mutants_keep_shape tgt n pop pop' :
  Forall2 (mutant_of tgt) pop pop' ->
  Forall (fun member => length member = n) pop ->
  length pop' = length pop /\ Forall (fun member => length member = n) pop'.
Proof.
  induction 1 as [|member dna pop pop' [Hlen _] _ IH]; intros Hall.
  - split; [reflexivity | constructor].
  - inversion Hall as [|? ? Hm Hall']; subst.
    destruct (IH Hall') as [IHl IHs]. split; [cbn; lia|].
    constructor; [lia | exact IHs].
Qed.

Lemma generate_fitness_frame_eq self pos :
  post generate_fitness self pos
    (fun _ self' pos' =>
       exists fit, self' = set_fitness fit self /\ pos' = pos
         /\ length fit = length (population self)
         /\ (target self <> [] ->
             Forall (fun member => length member = length (target self))
               (population self) ->
             fit = map (fitness_of (target self)) (population self)))
    (fun e self' pos' =>
       exists fit, self' = set_fitness fit self /\ pos' = pos
         /\ (e = IndexError \/ e = ZeroDivisionError)).
Proof.
  pose proof (generate_fitness_frame self pos) as H. unfold post in *.
  destruct (generate_fitness self pos) as [[] self' pos'|e self' pos'] eqn:E;
    [|exact H].
  destruct H as (fit & -> & -> & Hlen). exists fit.
  split; [reflexivity|]. split; [reflexivity|]. split; [exact Hlen|].
  intros Hne Hshape. rewrite (generate_fitness_eq self pos Hne Hshape) in E.
  inversion E as [Hfit]. now symmetry.
Qed.

Section Generations.

Variable random_state : nat -> N.

Lemma new_generation_frame mutation_rate self pos :
  post (new_generation random_state mutation_rate) self pos
    (fun _ self' pos' =>
       keeps self self'
       /\ generation self' = (generation self + 1)%Z
       /\ length (population self')
          = (2 * Z.to_nat (populationsize self ÷ 2))%nat
       /\ Forall (fun member => length member = length (target self))
            (population self')
       /\ length (fitness self') = length (population self')
       /\ (target self <> [] ->
           fitness self' = map (fitness_of (target self)) (population self'))
       /\ mating_pool self' = pool_of (population self') (fitness self')
       /\ (exists m i closest,
             fitness self' <> []
             /\ m = max_from (hd 0 (fitness self')) (tl (fitness self'))
             /\ index (fitness self') m = Some i
             /\ nth_error (population self') i = Some closest
             /\ max_fitness self' = Some m
             /\ closest_target self' = Some closest
             /\ (Qeq_bool m 1 = true ->
                 target_acquired self' = true
                 /\ target_population self' = Some closest)
             /\ (Qeq_bool m 1 = false ->
                 target_acquired self' = target_acquired self
                 /\ target_population self' = target_population self)))
    (fun e self' pos' =>
       keeps self self' /\ generation self' = generation self).
Proof.
  unfold new_generation. step. call reproduction_frame.
  - intros [] self1 pos1 (pop1 & -> & -> & Hl1 & Hall1).
    step. call mutation_frame.
    + intros [] self2 pos2 (pop2 & -> & Hmut).
      cbn [population target set_population] in Hmut.
      destruct (mutants_keep_shape _ _ _ _ Hmut Hall1) as [Hl2 Hall2].
      step. call generate_fitness_frame_eq.
      * intros [] self3 pos3 (fit & -> & -> & Hlf & Hfit).
        cbn [population target set_population] in Hlf, Hfit.
        set (self3 := set_fitness fit (set_population pop2 (set_population pop1 self))).
        step.
        call check_progress_full.
        -- intros [] self4 pos4 (-> & f0 & fit' & i & closest & Efit & Hi & Hc & ->).
           destruct (progress_checked_keeps (max_from f0 fit') closest self3)
             as (Hk & (Ht & HP & Hpop & Hfit4 & Hmp) & Hgen & Hmax & Hclo & Hacq & Hnot).
           step. call create_mating_pool_post.
           { rewrite Hfit4, Hpop. exact Hlf. }
           ++ intros [] self5 pos5 [-> ->].
              step. cbn [target populationsize population fitness mating_pool
                         generation target_acquired max_fitness closest_target
                         target_population set_generation set_mating_pool].
              rewrite Hpop, Hfit4, Hgen.
              cbn [population fitness generation self3 set_fitness set_population].
              split.
              { destruct Hk as (Hk1 & Hk2 & Hk3). repeat split; auto. }
              split; [reflexivity|]. split; [exact (eq_trans Hl2 Hl1)|].
              split; [exact Hall2|]. split; [exact Hlf|].
              split; [intros Hne; now apply Hfit|]. split; [reflexivity|].
              cbn [fitness self3 set_fitness] in Efit. subst fit.
              exists (max_from f0 fit'), i, closest.
              split; [discriminate|]. split; [reflexivity|].
              split; [exact Hi|]. split; [exact Hc|].
              split; [exact Hmax|]. split; [exact Hclo|].
              split; [exact Hacq | exact Hnot].
           ++ intros e self5 pos5 (_ & _ & [pool ->] & _).
              cbn [generation set_mating_pool]. split; [|exact Hgen].
              destruct Hk as (Hk1 & Hk2 & Hk3). repeat split; auto.
        -- intros e self4 pos4 (_ & Hk & Hgen & _). split; [|exact Hgen].
           destruct Hk as (Hk1 & Hk2 & Hk3). repeat split; auto.
      * intros e self3 pos3 (fit & -> & _ & _). split; [|reflexivity].
        repeat split; auto.
    + intros e self2 pos2 (-> & _). split; [|reflexivity]. repeat split; auto.
  - intros e self1 pos1 [[pop ->] _]. split; [|reflexivity]. repeat split; auto.
Qed.

End Generations.


(** ** Generations and rounds *)

Section Rounds.

Variable random_state : nat -> N.

(** X3: a [new_generation] call that returns has moved the generation
    counter by one and has left the target and the size as they were; the
    new population has [2 * int(populationsize / 2)] individuals, each of
    the target's length; the fitness vector is parallel to it and the
    mating pool is built from both; [target_acquired] is never reset.  A
    call that raises leaves the target, the size and the generation counter
    as they were and does not reset [target_acquired] either. *)
Theorem new_generation_effect mutation_rate self pos :
  (forall self' pos',
     new_generation random_state mutation_rate self pos = Ok tt self' pos' ->
     target self' = target self
     /\ populationsize self' = populationsize self
     /\ generation self' = (generation self + 1)%Z
     /\ (target_acquired self = true -> target_acquired self' = true)
     /\ length (population self') = (2 * Z.to_nat (populationsize self ÷ 2))%nat
     /\ Forall (fun member => length member = length (target self))
          (population self')
     /\ length (fitness self') = length (population self')
     /\ mating_pool self' = pool_of (population self') (fitness self'))
  /\ (forall e self' pos',
        new_generation random_state mutation_rate self pos = Raise e self' pos' ->
        target self' = target self
        /\ populationsize self' = populationsize self
        /\ generation self' = generation self
        /\ (target_acquired self = true -> target_acquired self' = true)).
Proof.
  pose proof (new_generation_frame random_state mutation_rate self pos) as H.
  unfold post in H. split.
  - intros self' pos' E. rewrite E in H.
    destruct H as ((Ht & HP & Ha) & Hg & Hl & Hs & Hf & _ & Hm & _).
    repeat split; auto.
  - intros e self' pos' E. rewrite E in H.
    destruct H as ((Ht & HP & Ha) & Hg). repeat split; auto.
Qed.

Lemma evolution_loop_post mutation_rate :
  forall rounds self pos,
    post (evolution_loop random_state rounds mutation_rate) self pos
      (fun _ self' pos' =>
         keeps self self'
         /\ exists k,
              (k <= rounds)%nat
              /\ generation self' = (generation self + Z.of_nat k)%Z
              /\ ((k < rounds)%nat -> target_acquired self' = true)
              /\ (k = 0%nat -> self' = self /\ pos' = pos)
              /\ (target_acquired self = true -> rounds <> 0%nat -> k = 1%nat))
      (fun e self' pos' => keeps self self').
Proof.
  induction rounds as [|rounds IH]; intros self pos; cbn [evolution_loop].
  - step. split; [apply keeps_refl|]. exists 0%nat.
    repeat split; auto; try lia.
  - step. call new_generation_frame.
    + intros [] self1 pos1 (Hk & Hgen & _).
      step. step. destruct (target_acquired self1) eqn:Hacq.
      * step. split; [exact Hk|]. exists 1%nat.
        repeat split; auto; try lia.
      * call IH.
        -- intros [] self' pos' (Hk' & k & Hle & Hgen' & Hlt & H0 & H1).
           split; [eapply keeps_trans; eauto|]. exists (S k).
           split; [lia|]. split; [rewrite Hgen', Hgen; lia|].
           split; [intros Hlt'; apply Hlt; lia|]. split; [discriminate|].
           intros Ha _. destruct Hk as (_ & _ & Hs). rewrite (Hs Ha) in Hacq.
           discriminate.
        -- intros e self' pos' Hk'. eapply keeps_trans; eauto.
    + intros e self1 pos1 [Hk _]. exact Hk.
Qed.

(** X2: an [evolution_rounds(rounds)] call that returns has run k
    generations with k <= max(rounds, 0); it ran fewer than [rounds] only
    because the target was acquired; with k = 0 nothing at all was touched;
    and on an object that is already acquired it runs exactly one generation
    whenever rounds >= 1.  The target and the size are as before. *)
Theorem evolution_rounds_effect rounds mutation_rate self pos self' pos' :
  evolution_rounds random_state rounds mutation_rate self pos = Ok tt self' pos' ->
  target self' = target self
  /\ populationsize self' = populationsize self
  /\ exists k,
       (k <= Z.to_nat rounds)%nat
       /\ generation self' = (generation self + Z.of_nat k)%Z
       /\ ((k < Z.to_nat rounds)%nat -> target_acquired self' = true)
       /\ (k = 0%nat -> self' = self /\ pos' = pos)
       /\ (target_acquired self = true -> (1 <= rounds)%Z -> k = 1%nat).
Proof.
  intros E. unfold evolution_rounds in E.
  pose proof (evolution_loop_post mutation_rate (Z.to_nat rounds) self pos) as H.
  unfold post in H. rewrite E in H.
  destruct H as ((Ht & HP & _) & k & Hle & Hg & Hlt & H0 & H1).
  split; [exact Ht|]. split; [exact HP|]. exists k.
  repeat split; auto; try (now apply H0). intros Ha Hr. apply H1; [exact Ha | lia].
Qed.

(** X12: with a size of 1 or less there is no pair to breed:
    [new_generation] empties the population and the fitness vector, draws
    nothing, and raises the [ValueError] of [max] on an empty list, whatever
    the mutation rate and the mating pool. *)
Theorem new_generation_size_one mutation_rate self pos :
  (populationsize self <= 1)%Z ->
  new_generation random_state mutation_rate self pos
  = Raise ValueError (set_fitness [] (set_population [] self)) pos.
Proof.
  intros HP. unfold new_generation, reproduction.
  assert (Hq : Z.to_nat (populationsize self ÷ 2) = 0%nat).
  { destruct (Z.le_gt_cases 0 (populationsize self)) as [H0|H0].
    - assert (populationsize self ÷ 2 = 0)%Z as ->
        by (apply Z.quot_small; lia). reflexivity.
    - assert (populationsize self ÷ 2 <= 0)%Z
        by (apply Z.quot_le_upper_bound; lia || (rewrite Z.mul_0_r; lia)).
      lia. }
  cbv [bind modify gets]. cbn [populationsize set_population]. rewrite Hq.
  reflexivity.
Qed.

End Rounds.


(** ** Edge cases of the evaluation and of the convergence check *)

Lemma foldM_app {A B} (body : B -> A -> M B) l1 l2 acc self pos :
  foldM body (l1 ++ l2) acc self pos
  = bind (foldM body l1 acc) (foldM body l2) self pos.
Proof.
  revert acc self pos. induction l1 as [|x l1 IH]; intros acc self pos.
  - reflexivity.
  - cbn [app foldM]. unfold bind.
    destruct (body acc x self pos) as [acc' self' pos'|e self' pos'];
      [|reflexivity].
    rewrite IH. reflexivity.
Qed.

Lemma score_loop_short member tgt self pos :
  (length member < length tgt)%nat ->
  foldM (fun score i =>
           m_i <- getitem member i ;;
           t_i <- getitem tgt i ;;
           ret (if Ascii.eqb m_i t_i then S score else score))
        (seq 0 (length tgt)) O self pos
  = Raise IndexError self pos.
Proof.
  intros Hlt.
  replace (length tgt) with (length member + S (length tgt - S (length member)))%nat
    at 1 by lia.
  rewrite seq_app, foldM_app.
  rewrite (bind_eq _ _ _ _ _ _ _
             (score_loop member tgt self pos (length member) 0 0
                ltac:(lia) ltac:(lia))).
  cbn [seq foldM Nat.add]. apply bind_raise. apply bind_raise.
  unfold getitem.
  assert (nth_error member (length member) = None) as ->
    by (apply nth_error_None; lia).
  reflexivity.
Qed.

(** X4: on a non-empty fitness vector that is no longer than the population,
    [check_progress] returns; it stores the largest fitness [m], and as
    [closest_target] the individual at the first index whose fitness equals
    [m]; when [m] is 1 it sets [target_acquired] and stores that individual
    as [target_population], and otherwise it leaves both as they were. *)
Theorem check_progress_spec self pos :
  fitness self <> [] ->
  (length (fitness self) <= length (population self))%nat ->
  exists m i closest,
    In m (fitness self)
    /\ (forall f, In f (fitness self) -> f <= m)
    /\ (exists x, nth_error (fitness self) i = Some x /\ x == m)
    /\ (forall j y, (j < i)%nat -> nth_error (fitness self) j = Some y -> ~ y == m)
    /\ nth_error (population self) i = Some closest
    /\ check_progress self pos = Ok tt (progress_checked m closest self) pos
    /\ max_fitness (progress_checked m closest self) = Some m
    /\ closest_target (progress_checked m closest self) = Some closest
    /\ (m == 1 ->
        target_acquired (progress_checked m closest self) = true
        /\ target_population (progress_checked m closest self) = Some closest)
    /\ (~ m == 1 ->
        target_acquired (progress_checked m closest self) = target_acquired self
        /\ target_population (progress_checked m closest self)
           = target_population self).
Proof.
  intros Hne Hlen.
  destruct (fitness self) as [|f0 fit] eqn:Efit; [congruence|].
  destruct (max_from_spec fit f0) as [Hin Hmax].
  set (m := max_from f0 fit) in *.
  destruct (index_In (f0 :: fit) m m Hin (Qeq_refl m)) as [i Hi].
  destruct (index_Some _ _ _ Hi) as (x & Hx & Hxm & Hfirst).
  assert (Hi_lt : (i < length (f0 :: fit))%nat)
    by (apply nth_error_Some; congruence).
  destruct (nth_error (population self) i) as [closest|] eqn:Hc;
    [|apply nth_error_None in Hc; lia].
  destruct (progress_checked_keeps m closest self)
    as (_ & _ & _ & Hm & Hclo & Hacq & Hnot).
  exists m, i, closest.
  split; [exact Hin|]. split; [exact Hmax|]. split; [eauto|].
  split; [exact Hfirst|]. split; [exact Hc|].
  split; [now apply (check_progress_eq self pos f0 fit i closest)|].
  split; [exact Hm|]. split; [exact Hclo|]. split.
  - intros H1. apply Hacq. now apply Qeq_bool_iff.
  - intros H1. apply Hnot. destruct (Qeq_bool m 1) eqn:Hq; [|reflexivity].
    apply Qeq_bool_iff in Hq. contradiction.
Qed.

(** X5: on an empty fitness vector [check_progress] raises the [ValueError]
    of [max] and touches nothing; on a non-empty fitness vector with an
    empty population it raises [IndexError] after it has already
    overwritten [max_fitness]. *)
Theorem check_progress_errors self pos :
  (fitness self = [] -> check_progress self pos = Raise ValueError self pos)
  /\ (fitness self <> [] -> population self = [] ->
      exists m,
        In m (fitness self)
        /\ check_progress self pos
           = Raise IndexError (set_max_fitness (Some m) self) pos).
Proof.
  split.
  - intros Hfit. unfold check_progress, bind, gets, py_max. now rewrite Hfit.
  - intros Hne Hpop.
    destruct (fitness self) as [|f0 fit] eqn:Efit; [congruence|].
    destruct (max_from_spec fit f0) as [Hin _].
    destruct (index_In (f0 :: fit) _ _ Hin (Qeq_refl _)) as [i Hi].
    exists (max_from f0 fit). split; [exact Hin|].
    unfold check_progress, bind, gets, py_max, py_index, modify, getitem.
    rewrite Efit. unfold ret at 1. cbn [fitness set_max_fitness].
    rewrite Efit, Hi. unfold ret at 1. cbn [population set_max_fitness].
    rewrite Hpop. now destruct i.
Qed.

(** X6: [generate_fitness] on an empty population returns with an empty
    fitness vector, even for an empty target; on an empty target and a
    non-empty population it raises [ZeroDivisionError] with the fitness
    vector emptied; and at the first member that is shorter than the target
    it raises [IndexError], the fitness vector holding the scores of the
    members before it. *)
Theorem generate_fitness_edges self pos :
  (population self = [] ->
     generate_fitness self pos = Ok tt (set_fitness [] self) pos)
  /\ (target self = [] -> population self <> [] ->
        generate_fitness self pos
        = Raise ZeroDivisionError (set_fitness [] self) pos)
  /\ (forall done short rest,
        population self = done ++ short :: rest ->
        Forall (fun member => length member = length (target self)) done ->
        (length short < length (target self))%nat ->
        generate_fitness self pos
        = Raise IndexError
            (set_fitness (map (fitness_of (target self)) done) self) pos).
Proof.
  split; [|split].
  - intros Hpop. unfold generate_fitness, bind, modify, gets.
    cbn [population set_fitness]. now rewrite Hpop.
  - intros Ht Hpop. unfold generate_fitness, bind at 1 2, modify at 1, gets at 1.
    cbn [population set_fitness].
    destruct (population self) as [|member pop]; [congruence|].
    unfold for_each. cbn [foldM]. apply bind_raise.
    unfold bind at 1, gets at 1. cbn [target set_fitness]. rewrite Ht.
    unfold bind, gets, range. cbn [length seq foldM]. unfold ret at 1.
    cbn [target set_fitness]. rewrite Ht. reflexivity.
  - intros done short rest Hpop Hdone Hshort.
    assert (Hne : target self <> [])
      by (destruct (target self); [cbn in Hshort; lia | discriminate]).
    unfold generate_fitness, bind at 1 2, modify at 1, gets at 1.
    cbn [population set_fitness]. rewrite Hpop.
    unfold for_each. rewrite foldM_app.
    pose proof (generate_fitness_loop (target self) Hne done
                  (set_fitness [] self) pos eq_refl Hdone) as Hloop.
    unfold for_each in Hloop. rewrite (bind_eq _ _ _ _ _ _ _ Hloop).
    cbn [fitness set_fitness app foldM]. apply bind_raise.
    unfold bind at 1, gets at 1. unfold set_fitness at 1 2; cbn [target].
    apply bind_raise. unfold range.
    apply (score_loop_short short (target self)). exact Hshort.
Qed.


(** ** More on the mating pool *)

Lemma repeat_In {A} (x y : A) n : In y (repeat x n) <-> y = x /\ (0 < n)%nat.
Proof.
  split.
  - intros H. split; [exact (repeat_spec _ _ _ H)|].
    destruct n; [destruct H | lia].
  - intros [-> Hn]. destruct n; [lia | now left].
Qed.

Lemma pool_of_In pop :
  forall fit member,
    In member (pool_of pop fit)
    <-> exists i f, nth_error pop i = Some member /\ nth_error fit i = Some f
                    /\ (0 < copies f)%nat.
Proof.
  unfold pool_of.
  induction pop as [|m pop IH]; intros fit member.
  - cbn. split; [tauto|]. intros ([|i] & f & H & _); discriminate.
  - destruct fit as [|f0 fit].
    + cbn. split; [tauto|]. intros ([|i] & f & _ & H & _); discriminate.
    + cbn [combine map concat fst snd]. rewrite in_app_iff, repeat_In, IH. split.
      * intros [[-> Hn]|(i & f & Hp & Hf & Hn)].
        -- exists 0%nat, f0. auto.
        -- exists (S i), f. auto.
      * intros ([|i] & f & Hp & Hf & Hn); cbn in Hp, Hf.
        -- inversion Hp; inversion Hf; subst. left. auto.
        -- right. eauto.
Qed.

Lemma pool_of_length pop :
  forall fit,
    length (pool_of pop fit)
    = fold_right Nat.add 0%nat (map copies (firstn (length pop) fit)).
Proof.
  unfold pool_of.
  induction pop as [|m pop IH]; intros [|f fit]; cbn; auto.
  rewrite length_app, repeat_length, IH. reflexivity.
Qed.




(** X16: for a target of fewer than 2^53 characters, the doubles that the
    program stores as scores compare as the exact quotients do: the order,
    the equality and the comparison with 1.0 of two scores are those of the
    quotients, so that [max], [index] and the test [== 1.0] of
    [check_progress] take the same branches on either. *)
Theorem scores_as_doubles tgt p q :
  tgt <> [] -> (Z.of_nat (length tgt) < 2 ^ 53)%Z ->
  (fitness_of tgt p < fitness_of tgt q
   <-> to_double (fitness_of tgt p) < to_double (fitness_of tgt q))
  /\ (fitness_of tgt p == fitness_of tgt q
      <-> to_double (fitness_of tgt p) == to_double (fitness_of tgt q))
  /\ (fitness_of tgt p == 1 <-> to_double (fitness_of tgt p) == 1).
Proof.
  intros Hne Hb.
  assert (Hlt : forall a b, fitness_of tgt a < fitness_of tgt b
                            <-> to_double (fitness_of tgt a)
                                < to_double (fitness_of tgt b)).
  { intros a b. split; [now apply fitness_of_double_lt|].
    intros H. destruct (Qlt_le_dec (fitness_of tgt a) (fitness_of tgt b)) as [|Hge];
      [assumption|].
    pose proof (to_double_mono _ _ Hge). lra. }
  split; [apply Hlt|]. split.
  - split.
    + intros H. now rewrite (to_double_comp _ _ H).
    + intros H.
      destruct (Q_dec (fitness_of tgt p) (fitness_of tgt q)) as [[Hc|Hc]|Hc];
        [apply Hlt in Hc; lra | apply Hlt in Hc; lra | exact Hc].
  - assert (Ho : to_double 1 = 1) by (vm_compute; reflexivity).
    assert (Hn : (0 < length tgt)%nat) by (destruct tgt; cbn; [congruence | lia]).
    assert (H1 : 1 == Z.of_nat (length tgt) # Pos.of_nat (length tgt)).
    { unfold Qeq. cbn [Qnum Qden].
      rewrite <- (positive_nat_Z (Pos.of_nat (length tgt))), Nat2Pos.id by lia.
      lia. }
    split.
    + intros H. rewrite (to_double_comp _ _ H), Ho. reflexivity.
    + intros H. destruct (fitness_of_bounds tgt p Hne) as [_ Hle].
      destruct (Qlt_le_dec (fitness_of tgt p) 1) as [Hc|Hc]; [|lra].
      assert (Hk : (matches p tgt < length tgt)%nat).
      { unfold fitness_of, Qlt in Hc. cbn [Qnum Qden] in Hc.
        rewrite <- (positive_nat_Z (Pos.of_nat (length tgt))), Nat2Pos.id in Hc
          by lia.
        lia. }
      pose proof (quotient_double_lt (matches p tgt) (length tgt) (length tgt)
                    Hn Hb ltac:(lia)) as Hs.
      rewrite <- (to_double_comp _ _ H1), Ho in Hs.
      unfold fitness_of in H. lra.
Qed.

(** X7: after [create_mating_pool] on a parallel fitness vector, an
    individual is in the mating pool exactly when it stands at some index
    of the population whose fitness rounds to at least one copy, the count
    being [rint] of the product of doubles; so individuals whose fitness
    rounds to 0 are never parents, and the pool is empty when every fitness
    does. *)
Theorem mating_pool_members self pos self' pos' :
  length (fitness self) = length (population self) ->
  create_mating_pool self pos = Ok tt self' pos' ->
  (forall member,
     In member (mating_pool self')
     <-> exists i f,
           nth_error (population self) i = Some member
           /\ nth_error (fitness self) i = Some f
           /\ (1 <= rint (float_mul (to_double f) 100))%Z)
  /\ (Forall (fun f => (rint (float_mul (to_double f) 100) <= 0)%Z) (fitness self) ->
      mating_pool self' = []).
Proof.
  intros Hlen E. pose proof (create_mating_pool_post self pos Hlen) as H.
  unfold post in H. rewrite E in H. destruct H as [-> ->].
  cbn [mating_pool set_mating_pool].
  assert (Hiff : forall member,
             In member (pool_of (population self) (fitness self))
             <-> exists i f,
                   nth_error (population self) i = Some member
                   /\ nth_error (fitness self) i = Some f
                   /\ (1 <= rint (float_mul (to_double f) 100))%Z).
  { intros member. rewrite pool_of_In. unfold copies.
    split; intros (i & f & Hp & Hf & Hn); exists i, f; repeat split; auto; lia. }
  split; [exact Hiff|].
  intros Hall. rewrite Forall_forall in Hall.
  destruct (pool_of (population self) (fitness self)) as [|member pool] eqn:Ep;
    [reflexivity|].
  destruct (proj1 (Hiff member) (or_introl eq_refl)) as (i & f & _ & Hf & Hn).
  specialize (Hall f (nth_error_In _ _ Hf)). lia.
Qed.


(** ** More on crossover *)

Lemma filter_length_mono {A} (f g : A -> bool) l :
  (forall x, In x l -> f x = true -> g x = true) ->
  (length (filter f l) <= length (filter g l))%nat.
Proof.
  induction l as [|x l IH]; intros H; cbn; [lia|].
  assert (IH' : (length (filter f l) <= length (filter g l))%nat)
    by (apply IH; intros y Hy; apply H; now right).
  destruct (f x) eqn:Hf.
  - rewrite (H x (or_introl eq_refl) Hf). cbn. lia.
  - destruct (g x); cbn; lia.
Qed.

Lemma agree_baby p q tgt i :
  (i < length tgt)%nat -> length p = length tgt -> length q = length tgt ->
  agree (baby p q tgt) tgt i = agree p tgt i || agree q tgt i.
Proof.
  intros Hi Hp Hq. unfold agree at 1.
  rewrite (baby_nth_error p q tgt i Hi Hp Hq).
  destruct (agree p tgt i) eqn:Ha.
  - unfold agree in Ha. destruct (nth_error p i), (nth_error tgt i);
      try discriminate. now rewrite Ha.
  - cbn. reflexivity.
Qed.

Lemma matches_baby p q tgt :
  length p = length tgt -> length q = length tgt ->
  matches (baby p q tgt) tgt
  = length (filter (fun i => agree p tgt i || agree q tgt i) (range (length tgt))).
Proof.
  intros Hp Hq. unfold matches. f_equal. apply filter_ext_in.
  intros i Hi. unfold range in Hi. apply in_seq in Hi.
  apply agree_baby; auto. lia.
Qed.

Lemma fitness_of_le tgt p q :
  (matches p tgt <= matches q tgt)%nat -> fitness_of tgt p <= fitness_of tgt q.
Proof.
  intros H. unfold fitness_of, Qle. cbn [Qnum Qden].
  apply Z.mul_le_mono_nonneg_r; lia.
Qed.

Lemma baby_fitter p q tgt :
  length p = length tgt -> length q = length tgt ->
  matches (baby p q tgt) tgt = matches (baby q p tgt) tgt
  /\ (matches p tgt <= matches (baby p q tgt) tgt)%nat
  /\ (matches q tgt <= matches (baby p q tgt) tgt)%nat.
Proof.
  intros Hp Hq. rewrite (matches_baby p q tgt Hp Hq), (matches_baby q p tgt Hq Hp).
  split; [|split].
  - f_equal. apply filter_ext. intros i. apply orb_comm.
  - unfold matches. apply filter_length_mono. intros i _ ->. reflexivity.
  - unfold matches. apply filter_length_mono. intros i _ ->. apply orb_true_r.
Qed.

Section Crossover.

Variable random_state : nat -> N.

(** X8: when both drawn parents have the target's length, the two babies
    that one pass of the reproduction loop appends have the same fitness,
    which is at least that of either parent; in particular, if one parent
    is the target, both babies are the target. *)
Theorem babies_at_least_as_fit self pos parentA parentB :
  choice random_state (mating_pool self) self pos = Ok parentA self (S pos) ->
  choice random_state
    (filter (fun member => negb (str_eqb member parentA)) (mating_pool self))
    self (S pos) = Ok parentB self (S (S pos)) ->
  length parentA = length (target self) ->
  length parentB = length (target self) ->
  exists babyA babyB,
    reproduction_pair random_state self pos
    = Ok tt (set_population (population self ++ [babyA; babyB]) self) (S (S pos))
    /\ fitness_of (target self) babyA == fitness_of (target self) babyB
    /\ fitness_of (target self) parentA <= fitness_of (target self) babyA
    /\ fitness_of (target self) parentB <= fitness_of (target self) babyA
    /\ (parentA = target self \/ parentB = target self ->
        babyA = target self /\ babyB = target self).
Proof.
  intros HA HB HlA HlB.
  set (tgt := target self) in *.
  exists (baby parentA parentB tgt), (baby parentB parentA tgt).
  destruct (baby_fitter parentA parentB tgt HlA HlB) as (Heq & HleA & HleB).
  split; [apply reproduction_pair_eq; auto; unfold tgt in *; lia|].
  split; [unfold fitness_of; now rewrite Heq|].
  split; [now apply fitness_of_le|]. split; [now apply fitness_of_le|].
  intros Hone.
  assert (Hfull : matches (baby parentA parentB tgt) tgt = length tgt).
  { pose proof (matches_le (baby parentA parentB tgt) tgt) as Hle.
    destruct Hone as [H|H].
    - pose proof (proj2 (matches_full parentA tgt HlA) H). lia.
    - pose proof (proj2 (matches_full parentB tgt HlB) H). lia. }
  split.
  - apply matches_full; [apply baby_length | exact Hfull].
  - apply matches_full; [apply baby_length | congruence].
Qed.

End Crossover.


(** ** More on mutation *)

Section MutationEdges.

Variable random_state : nat -> N.

Lemma mutation_loop_invalid_rate mutation_rate self pos :
  mutation_rate < 0 \/ 1 < mutation_rate ->
  forall pop new_population,
    concat pop <> [] ->
    foldM (fun new_population member =>
        dna_out <- foldM (fun dna_out i =>
            mutation <- choice_p random_state [mutate; no_mutate]
                          [mutation_rate; 1 - mutation_rate] ;;
            match mutation with
            | mutate =>
                tgt <- gets target ;;
                dna <- generate_random_dna random_state 1 tgt ;;
                ret (dna_out ++ dna)
            | no_mutate =>
                m_i <- getitem member i ;;
                ret (dna_out ++ [m_i])
            end)
          (range (length member)) [] ;;
        ret (new_population ++ [dna_out]))
      pop new_population self pos
    = Raise ValueError self pos.
Proof.
  intros Hrate.
  assert (Hc : choice_p random_state [mutate; no_mutate]
                 [mutation_rate; 1 - mutation_rate] self pos
               = Raise ValueError self pos).
  { pose proof (choice_p_rate_frame random_state mutation_rate self pos) as H.
    unfold post in H.
    destruct (choice_p random_state [mutate; no_mutate]
                [mutation_rate; 1 - mutation_rate] self pos)
      as [c self' pos'|e self' pos'].
    - destruct H as (_ & _ & H0 & H1). lra.
    - destruct H as (-> & -> & -> & _). reflexivity. }
  induction pop as [|member pop IH]; intros new_population Hne; [now destruct Hne|].
  cbn [foldM]. destruct member as [|c member].
  - cbn [length range seq foldM]. unfold range. cbn [seq foldM].
    unfold bind at 1 2, ret at 1 2. apply IH. exact Hne.
  - apply bind_raise. apply bind_raise. unfold range. cbn [length seq foldM].
    apply bind_raise. apply bind_raise. exact Hc.
Qed.

(** X9: with a mutation rate below 0 or above 1, [mutation] raises
    [ValueError] at the first character of the population, before it has
    touched the object or drawn anything.  A population without any
    character is returned as it is, whatever the rate. *)
Theorem mutation_invalid_rate mutation_rate self pos :
  (mutation_rate < 0 \/ 1 < mutation_rate ->
   concat (population self) <> [] ->
   mutation random_state mutation_rate self pos = Raise ValueError self pos)
  /\ (concat (population self) = [] ->
      mutation random_state mutation_rate self pos = Ok tt self pos).
Proof.
  split.
  - intros Hrate Hne. unfold mutation.
    rewrite (bind_eq _ _ _ _ _ _ _ (eq_refl : gets population self pos = Ok _ _ _)).
    apply bind_raise. now apply mutation_loop_invalid_rate.
  - intros Hnil. unfold mutation.
    rewrite (bind_eq _ _ _ _ _ _ _ (eq_refl : gets population self pos = Ok _ _ _)).
    assert (Hloop : forall pop new_population,
               concat pop = [] ->
               foldM (fun new_population member =>
                   dna_out <- foldM (fun dna_out i =>
                       mutation <- choice_p random_state [mutate; no_mutate]
                                     [mutation_rate; 1 - mutation_rate] ;;
                       match mutation with
                       | mutate =>
                           tgt <- gets target ;;
                           dna <- generate_random_dna random_state 1 tgt ;;
                           ret (dna_out ++ dna)
                       | no_mutate =>
                           m_i <- getitem member i ;;
                           ret (dna_out ++ [m_i])
                       end)
                     (range (length member)) [] ;;
                   ret (new_population ++ [dna_out]))
                 pop new_population self pos
               = Ok (new_population ++ pop) self pos).
    { induction pop as [|member pop IH]; intros new_population Hc; cbn [foldM].
      - unfold ret. now rewrite app_nil_r.
      - cbn [concat] in Hc. apply app_eq_nil in Hc. destruct Hc as [-> Hc].
        unfold range. cbn [length seq foldM]. unfold bind at 1 2, ret at 1 2.
        rewrite (IH _ Hc). now rewrite <- app_assoc. }
    rewrite (bind_eq _ _ _ _ _ _ _ (Hloop (population self) [] Hnil)).
    cbn [app]. unfold modify. now destruct self.
Qed.

(** X10: a [mutation] call that returns has replaced the population by one
    with the same number of individuals, each of the length it had, in
    which every character is either the one that stood at that place or a
    character of the target; the rest of the object is as before.  A call
    that raises has raised [ValueError], has left the object untouched, and
    the rate was outside [0, 1] or the target empty; so for a rate in
    [0, 1] and a non-empty target [mutation] always returns. *)
Theorem mutation_effect mutation_rate self pos :
  (forall self' pos',
     mutation random_state mutation_rate self pos = Ok tt self' pos' ->
     exists pop,
       self' = set_population pop self
       /\ Forall2 (mutant_of (target self)) (population self) pop)
  /\ (forall e self' pos',
        mutation random_state mutation_rate self pos = Raise e self' pos' ->
        self' = self /\ e = ValueError
        /\ (mutation_rate < 0 \/ 1 < mutation_rate \/ target self = []))
  /\ (0 <= mutation_rate -> mutation_rate <= 1 -> target self <> [] ->
      exists self' pos',
        mutation random_state mutation_rate self pos = Ok tt self' pos').
Proof.
  pose proof (mutation_frame random_state mutation_rate self pos) as H.
  unfold post in H.
  destruct (mutation random_state mutation_rate self pos)
    as [[] self1 pos1|e self1 pos1].
  - split; [|split].
    + intros self' pos' E. inversion E; subst. exact H.
    + intros e self' pos' E. discriminate.
    + intros _ _ _. eauto.
  - split; [|split].
    + intros self' pos' E. discriminate.
    + intros e' self' pos' E. inversion E; subst. exact H.
    + intros H0 H1 Hne. destruct H as (_ & _ & [Hr|[Hr|Hr]]); [lra | lra | congruence].
Qed.

End MutationEdges.


(** ** The constructed object and the objects reachable from it *)

Lemma first_max_facts T pop f0 fit i closest :
  T <> [] ->
  Forall (fun member => length member = length T) pop ->
  map (fitness_of T) pop = f0 :: fit ->
  index (f0 :: fit) (max_from f0 fit) = Some i ->
  nth_error pop i = Some closest ->
  In closest pop
  /\ fitness_of T closest == max_from f0 fit
  /\ (forall member, In member pop -> fitness_of T member <= max_from f0 fit)
  /\ (Qeq_bool (max_from f0 fit) 1 = true <-> In T pop)
  /\ (Qeq_bool (max_from f0 fit) 1 = true -> closest = T).
Proof.
  intros Hne Hshape Hfit Hi Hc. rewrite Forall_forall in Hshape.
  destruct (max_from_spec fit f0) as [Hin Hmax].
  set (m := max_from f0 fit) in *.
  destruct (index_Some _ _ _ Hi) as (x & Hx & Hxm & _).
  assert (Hclo : In closest pop) by (eapply nth_error_In; eauto).
  assert (Hxc : x = fitness_of T closest).
  { pose proof (map_nth_error (fitness_of T) i pop Hc) as Hm.
    rewrite Hfit in Hm. congruence. }
  assert (Hall : forall member, In member pop -> fitness_of T member <= m).
  { intros member Hm. apply Hmax. rewrite <- Hfit. now apply in_map. }
  assert (Hone : Qeq_bool m 1 = true -> closest = T).
  { intros Hq. apply Qeq_bool_iff in Hq.
    apply (fitness_of_one T closest Hne (Hshape _ Hclo)).
    rewrite <- Hxc, Hxm. exact Hq. }
  split; [exact Hclo|]. split; [now rewrite <- Hxc|]. split; [exact Hall|].
  split; [|exact Hone]. split.
  - intros Hq. rewrite <- (Hone Hq). exact Hclo.
  - intros HT. apply Qeq_bool_iff. apply Qle_antisym.
    + rewrite <- Hfit in Hin. apply in_map_iff in Hin.
      destruct Hin as (member & <- & _). now apply fitness_of_bounds.
    + assert (H1 : fitness_of T T == 1)
        by (now apply (fitness_of_one T T Hne)).
      rewrite <- H1. now apply Hall.
Qed.

Section Reachable.

Variable random_state : nat -> N.

Lemma init_state T P pos self pos' :
  T <> [] ->
  __init__ random_state T P pos = Ok tt self pos' ->
  exists pop f0 fit i closest,
    length pop = Z.to_nat P
    /\ Forall (well_formed T) pop
    /\ map (fitness_of T) pop = f0 :: fit
    /\ index (f0 :: fit) (max_from f0 fit) = Some i
    /\ nth_error pop i = Some closest
    /\ self = progress_checked (max_from f0 fit) closest
                (an_evolution T P pop (f0 :: fit) (pool_of pop (f0 :: fit))).
Proof.
  intros Hne E. unfold __init__ in E.
  set (self0 := mkEvolution T P [] [] [] 1 false None None None) in E.
  destruct (post_ok _ _ _ _ (generate_initial_population_post random_state self0 pos))
    as ([] & self1 & pos1 & Hgen & pop & -> & Hlen & Hwf).
  cbn [target populationsize self0] in Hlen, Hwf.
  rewrite (bind_eq _ _ _ _ _ _ _ Hgen) in E.
  set (self1 := set_population pop self0) in E.
  assert (Hshape : Forall (fun member => length member = length (target self1))
                     (population self1)).
  { eapply Forall_impl; [|exact Hwf]. now intros member []. }
  rewrite (bind_eq _ _ _ _ _ _ _ (generate_fitness_eq self1 pos1 Hne Hshape)) in E.
  set (self2 := set_fitness _ self1) in E.
  rewrite (bind_eq _ _ _ _ _ _ _
             (create_mating_pool_eq self2 pos1 ltac:(cbn; apply length_map)
                ltac:(cbn; apply fitness_finite_count; exact Hne))) in E.
  pose proof (check_progress_full
                (set_mating_pool (pool_of (population self2) (fitness self2)) self2)
                pos1) as Hcp.
  unfold post in Hcp. rewrite E in Hcp.
  destruct Hcp as (_ & f0 & fit & i & closest & Efit & Hi & Hc & ->).
  cbn [fitness population set_mating_pool set_fitness set_population
       self2 self1 self0 target] in Efit, Hc.
  exists pop, f0, fit, i, closest.
  split; [exact Hlen|]. split; [exact Hwf|]. split; [exact Efit|].
  split; [exact Hi|]. split; [exact Hc|].
  unfold an_evolution. rewrite <- Efit. reflexivity.
Qed.

Lemma in_step_checked T self f0 fit i closest :
  T <> [] ->
  target self = T ->
  Forall (fun member => length member = length T) (population self) ->
  fitness self = f0 :: fit ->
  map (fitness_of T) (population self) = f0 :: fit ->
  mating_pool self = pool_of (population self) (fitness self) ->
  index (f0 :: fit) (max_from f0 fit) = Some i ->
  nth_error (population self) i = Some closest ->
  (target_acquired self = true -> target_population self = Some T) ->
  (target_acquired self = false -> target_population self = None) ->
  in_step T (progress_checked (max_from f0 fit) closest self).
Proof.
  intros Hne Ht Hshape Efit Hmap Hpool Hi Hc Hacq Hnot.
  destruct (first_max_facts T (population self) f0 fit i closest
              Hne Hshape Hmap Hi Hc) as (Hclo & Hfc & Hall & Hiff & Hone).
  destruct (progress_checked_keeps (max_from f0 fit) closest self)
    as (_ & (_ & _ & Hpop & Hfit' & Hmp) & _ & Hmax & Hct & Hq1 & Hq0).
  unfold in_step. rewrite Hpop, Hfit', Hmp.
  split; [congruence|]. split; [exact Hpool|].
  destruct (Qeq_bool (max_from f0 fit) 1) eqn:Hq.
  - pose proof (Hone eq_refl) as HcT. subst closest.
    destruct (Hq1 eq_refl) as [Ha Htp]. rewrite Ha, Htp.
    split; [auto|]. split; [auto|]. split; [discriminate|].
    exists T, (max_from f0 fit). auto.
  - destruct (Hq0 eq_refl) as [Ha Htp]. rewrite Ha, Htp.
    split; [intros HT; apply Hiff in HT; discriminate|].
    split; [exact Hacq|]. split; [exact Hnot|].
    exists closest, (max_from f0 fit). auto.
Qed.

Lemma init_in_step T P pos self pos' :
  T <> [] ->
  __init__ random_state T P pos = Ok tt self pos' ->
  in_step T self /\ generation self = 1%Z
  /\ (target_acquired self = true <-> In T (population self)).
Proof.
  intros Hne E.
  destruct (init_state T P pos self pos' Hne E)
    as (pop & f0 & fit & i & closest & Hlen & Hwf & Hmap & Hi & Hc & ->).
  assert (Hshape : Forall (fun member => length member = length T) pop).
  { eapply Forall_impl; [|exact Hwf]. now intros member []. }
  split; [|split].
  - apply in_step_checked with (i := i); auto; try reflexivity.
    + cbn. intros; discriminate.
  - unfold progress_checked. destruct (Qeq_bool _ 1); reflexivity.
  - destruct (first_max_facts T pop f0 fit i closest Hne Hshape Hmap Hi Hc)
      as (_ & _ & _ & Hiff & _).
    unfold progress_checked.
    destruct (Qeq_bool (max_from f0 fit) 1); cbn; split; intros H; auto;
      try discriminate.
    + now apply Hiff.
    + apply Hiff in H. discriminate.
Qed.

Lemma step_in_step mutation_rate self pos self' pos' :
  target self <> [] ->
  (target_acquired self = true -> target_population self = Some (target self)) ->
  (target_acquired self = false -> target_population self = None) ->
  new_generation random_state mutation_rate self pos = Ok tt self' pos' ->
  in_step (target self) self'.
Proof.
  intros Hne Hacq Hnot E.
  pose proof (new_generation_frame random_state mutation_rate self pos) as H.
  unfold post in H. rewrite E in H.
  destruct H as (_ & _ & _ & Hshape & _ & Hfit & Hpool
                 & m & i & closest & Hfne & Hm & Hi & Hc & Hmax & Hct & Hq1 & Hq0).
  specialize (Hfit Hne).
  destruct (fitness self') as [|f0 fit] eqn:Efit; [congruence|].
  cbn [hd tl] in Hm. subst m.
  destruct (first_max_facts (target self) (population self') f0 fit i closest
              Hne Hshape (eq_sym Hfit) Hi Hc) as (Hclo & Hfc & Hall & Hiff & Hone).
  unfold in_step. rewrite Efit.
  split; [exact Hfit|]. split; [exact Hpool|].
  destruct (Qeq_bool (max_from f0 fit) 1) eqn:Hq.
  - pose proof (Hone eq_refl) as HcT. subst closest.
    destruct (Hq1 eq_refl) as [Ha Htp]. rewrite Ha, Htp.
    split; [auto|]. split; [auto|]. split; [discriminate|].
    exists (target self), (max_from f0 fit). auto.
  - destruct (Hq0 eq_refl) as [Ha Htp]. rewrite Ha, Htp.
    split; [intros HT; apply Hiff in HT; discriminate|].
    split; [exact Hacq|]. split; [exact Hnot|].
    exists closest, (max_from f0 fit). auto.
Qed.

Lemma reachable_in_step T P self :
  T <> [] ->
  reachable random_state T P self ->
  target self = T /\ in_step T self /\ (1 <= generation self)%Z.
Proof.
  intros Hne. induction 1 as [pos self pos' Hinit|self pos rate self' pos' Hr IH Hstep].
  - destruct (init_in_step T P pos self pos' Hne Hinit) as (Hin & Hg & _).
    destruct (reachable_invariant random_state T P self Hne
                (reach_init random_state T P pos self pos' Hinit)) as (Ht & _).
    split; [exact Ht|]. split; [exact Hin|]. lia.
  - destruct IH as (Ht & (_ & _ & _ & Hacq & Hnot & _) & Hg). subst T.
    pose proof (new_generation_frame random_state rate self pos) as H.
    unfold post in H. rewrite Hstep in H.
    destruct H as ((Ht' & _) & Hg' & _).
    split; [exact Ht'|]. split; [|lia].
    eapply step_in_step; eauto.
Qed.

(** X13: a constructed object (non-empty target) is at generation 1; its
    fitness vector, mating pool, [closest_target] and [max_fitness] are
    those of its population; [target_acquired] is set exactly when the
    target is in the initial population, and then [target_population] is the
    target; otherwise [target_population] is unset. *)
Theorem constructed_object T P pos self pos' :
  T <> [] ->
  __init__ random_state T P pos = Ok tt self pos' ->
  target self = T
  /\ populationsize self = P
  /\ (1 <= P)%Z
  /\ generation self = 1%Z
  /\ length (population self) = Z.to_nat P
  /\ in_step T self
  /\ (target_acquired self = true <-> In T (population self)).
Proof.
  intros Hne E.
  destruct (init_in_step T P pos self pos' Hne E) as (Hin & Hg & Hiff).
  pose proof (init_post random_state T P pos Hne) as Hpost.
  unfold post in Hpost. rewrite E in Hpost.
  destruct Hpost as (Ht & HP & Hlen & _).
  assert (population self <> []).
  { destruct Hin as (_ & _ & _ & _ & _ & closest & m & _ & _ & Hc & _).
    intros Hnil. rewrite Hnil in Hc. destruct Hc. }
  split; [exact Ht|]. split; [exact HP|].
  split; [destruct (population self); [congruence | cbn in Hlen; lia]|].
  split; [exact Hg|]. split; [exact Hlen|]. split; [exact Hin | exact Hiff].
Qed.

(** X14: every reachable object (non-empty target) keeps its derived
    attributes in step with its population: the fitness vector and the
    mating pool are those of the population, [closest_target] is an
    individual of the largest fitness and [max_fitness] is that fitness; the
    target in the population implies [target_acquired]; [target_population]
    is unset while [target_acquired] is false and is the target once it is
    true; the generation counter is at least 1. *)
Theorem reachable_object_in_step T P self :
  T <> [] ->
  reachable random_state T P self ->
  in_step T self /\ (1 <= generation self)%Z.
Proof.
  intros Hne Hr. destruct (reachable_in_step T P self Hne Hr) as (_ & H & Hg).
  auto.
Qed.

End Reachable.


Section SingleCharacter.

Variable random_state : nat -> N.

Lemma first_pair_fails self pos :
  mating_pool self = [] \/
  (forall m, In m (mating_pool self) -> m = hd [] (mating_pool self)) ->
  exists pos', reproduction_pair random_state self pos = Raise ValueError self pos'.
Proof.
  intros Hdeg. unfold reproduction_pair.
  rewrite (bind_eq _ _ _ _ _ _ _ (eq_refl : gets mating_pool self pos = Ok _ _ _)).
  destruct (mating_pool self) as [|d l] eqn:Hp.
  - exists pos. reflexivity.
  - destruct Hdeg as [Hnil|Hsame]; [discriminate|]. cbn [hd] in Hsame.
    destruct (choice_nonempty random_state (d :: l) self pos ltac:(discriminate))
      as [parentA HA].
    rewrite (bind_eq _ _ _ _ _ _ _ HA).
    rewrite (bind_eq _ _ _ _ _ _ _ (eq_refl : gets mating_pool self _ = Ok _ _ _)).
    cbv zeta. rewrite Hp.
    assert (Hothers : filter (fun member => negb (str_eqb member parentA)) (d :: l)
                      = []).
    { destruct (choice_inv _ _ _ _ _ _ _ HA) as [HinA _].
      apply Hsame in HinA. subst parentA.
      destruct (filter _ (d :: l)) as [|b rest] eqn:Hf; [reflexivity|].
      assert (Hb : In b (filter (fun member => negb (str_eqb member d)) (d :: l)))
        by (rewrite Hf; now left).
      apply other_parents_inv in Hb. destruct Hb as [Hin Hne].
      destruct Hne. now apply Hsame. }
    rewrite Hothers. exists (S pos). reflexivity.
Qed.

Lemma well_formed_single c n member :
  well_formed (repeat c n) member -> member = repeat c n.
Proof.
  intros [Hlen Hchars]. rewrite repeat_length in Hlen. rewrite <- Hlen.
  apply Forall_eq_repeat. eapply Forall_impl; [|exact Hchars].
  intros a Ha. symmetry. exact (repeat_spec _ _ _ Ha).
Qed.

(** X11: for a target made of one repeated character and a size of at least
    1, construction always returns with every individual equal to the
    target, so the target is acquired before any generation has run; and
    with a size of at least 2 every [new_generation] call on that object
    empties the population and raises [ValueError], because the mating pool
    holds a single value. *)
Theorem single_character_target c n P pos :
  (1 <= n)%nat -> (1 <= P)%Z ->
  exists self pos',
    __init__ random_state (repeat c n) P pos = Ok tt self pos'
    /\ population self = repeat (repeat c n) (Z.to_nat P)
    /\ target_acquired self = true
    /\ target_population self = Some (repeat c n)
    /\ ((2 <= P)%Z ->
        forall mutation_rate pos2,
        exists pos3,
          new_generation random_state mutation_rate self pos2
          = Raise ValueError (set_population [] self) pos3).
Proof.
  intros Hn HP. set (T := repeat c n).
  assert (Hne : T <> []) by (unfold T; destruct n; [lia | discriminate]).
  destruct (init_returns random_state T P pos Hne HP) as (self & pos' & E).
  exists self, pos'. split; [exact E|].
  pose proof (init_post random_state T P pos Hne) as Hpost.
  unfold post in Hpost. rewrite E in Hpost.
  destruct Hpost as (Ht & HPs & Hlen & Hwf & Hwfp).
  destruct (init_in_step random_state T P pos self pos' Hne E)
    as ((_ & _ & _ & Htp & _) & _ & Hiff).
  assert (Hall : forall pop, Forall (well_formed T) pop -> Forall (eq T) pop).
  { intros pop H. eapply Forall_impl; [|exact H].
    intros member Hm. symmetry. now apply well_formed_single. }
  assert (Hpop : population self = repeat T (Z.to_nat P)).
  { rewrite <- Hlen. apply Forall_eq_repeat. now apply Hall. }
  assert (Hacq : target_acquired self = true).
  { apply Hiff. rewrite Hpop. destruct (Z.to_nat P) eqn:HzP; [lia | now left]. }
  split; [exact Hpop|]. split; [exact Hacq|]. split; [now apply Htp|].
  intros HP2 mutation_rate pos2.
  unfold new_generation, reproduction.
  cbv [bind modify gets]. cbn [populationsize set_population].
  destruct (Z.to_nat (populationsize self ÷ 2)) as [|k] eqn:Hk.
  { assert (1 <= populationsize self ÷ 2)%Z
      by (apply Z.quot_le_lower_bound; lia).
    lia. }
  unfold range, for_each. cbn [seq foldM].
  destruct (first_pair_fails (set_population [] self) pos2) as [pos3 Hfail].
  { right. cbn [mating_pool set_population]. intros m Hm.
    pose proof (Hall _ Hwfp) as Hsame. rewrite Forall_forall in Hsame.
    rewrite <- (Hsame m Hm).
    destruct (mating_pool self) as [|d l]; [destruct Hm|].
    cbn [hd]. apply Hsame. now left. }
  exists pos3. unfold bind. now rewrite Hfail.
Qed.

End SingleCharacter.


(** ** The further theorems at work on concrete objects *)

Lemma generate_random_dna_spec_witness :
  let self := an_evolution (lit "AB") 2 [] [] [] in
  (exists dna,
     generate_random_dna (tape [1; 0]%N) 2 (lit "AB") self O = Ok dna self 2%nat
     /\ dna = lit "BA")
  /\ generate_random_dna (tape []) 1 [] self O = Raise ValueError self O.
Proof.
  intros self. split.
  - destruct (proj1 (generate_random_dna_spec (tape [1; 0]%N) 2 (lit "AB") self O)
                ltac:(discriminate)) as (dna & E & Hd & _).
    exists dna. split; [exact E | exact Hd].
  - apply (proj2 (generate_random_dna_spec (tape []) 1 [] self O));
      [reflexivity | discriminate].
Defined.

Lemma evolution_rounds_effect_witness :
  let self := an_evolution (lit "AB") 2 [] [] [lit "AA"; lit "BB"] in
  exists self' pos',
    evolution_rounds (tape []) 3 0 self O = Ok tt self' pos'
    /\ target self' = lit "AB"
    /\ populationsize self' = 2%Z
    /\ exists k,
         (k <= 3)%nat
         /\ generation self' = (1 + Z.of_nat k)%Z
         /\ ((k < 3)%nat -> target_acquired self' = true).
Proof.
  intros self.
  assert (H : { r : Evolution * nat
              | evolution_rounds (tape []) 3 0 self O = Ok tt (fst r) (snd r) })
    by (eexists (_, _); vm_compute; reflexivity).
  destruct H as [[self' pos'] E]. cbn [fst snd] in E.
  destruct (evolution_rounds_effect (tape []) 3 0 self O self' pos' E)
    as (Ht & HP & k & Hle & Hg & Hlt & _).
  exists self', pos'. split; [exact E|]. split; [exact Ht|]. split; [exact HP|].
  exists k. split; [exact Hle|]. split; [exact Hg | exact Hlt].
Defined.

Lemma new_generation_effect_witness :
  let self := an_evolution (lit "AB") 2 [] [] [lit "AA"; lit "BB"] in
  exists self' pos',
    new_generation (tape []) 0 self O = Ok tt self' pos'
    /\ generation self' = 2%Z
    /\ length (population self') = 2%nat
    /\ mating_pool self' = pool_of (population self') (fitness self').
Proof.
  intros self.
  assert (H : { r : Evolution * nat
              | new_generation (tape []) 0 self O = Ok tt (fst r) (snd r) })
    by (eexists (_, _); vm_compute; reflexivity).
  destruct H as [[self' pos'] E]. cbn [fst snd] in E.
  destruct (proj1 (new_generation_effect (tape []) 0 self O) self' pos' E)
    as (_ & _ & Hg & _ & Hl & _ & _ & Hm).
  exists self', pos'. split; [exact E|]. split; [exact Hg|].
  split; [exact Hl | exact Hm].
Defined.

Lemma check_progress_spec_witness :
  let self := an_evolution (lit "AB") 2 [lit "AA"; lit "BB"] [1 # 2; 1 # 2] [] in
  exists m i closest,
    nth_error (population self) i = Some closest
    /\ check_progress self O = Ok tt (progress_checked m closest self) O
    /\ (~ m == 1 ->
        target_acquired (progress_checked m closest self) = false).
Proof.
  intros self.
  destruct (check_progress_spec self O ltac:(discriminate) ltac:(cbn; lia))
    as (m & i & closest & _ & _ & _ & _ & Hc & E & _ & _ & _ & Hnot).
  exists m, i, closest. split; [exact Hc|]. split; [exact E|].
  intros H. exact (proj1 (Hnot H)).
Defined.

Lemma check_progress_errors_witness :
  check_progress (an_evolution (lit "AB") 2 [] [] []) O
  = Raise ValueError (an_evolution (lit "AB") 2 [] [] []) O
  /\ exists m,
       In m [1 # 2]
       /\ check_progress (an_evolution (lit "AB") 2 [] [1 # 2] []) O
          = Raise IndexError
              (set_max_fitness (Some m) (an_evolution (lit "AB") 2 [] [1 # 2] [])) O.
Proof.
  split.
  - apply (proj1 (check_progress_errors (an_evolution (lit "AB") 2 [] [] []) O)).
    reflexivity.
  - apply (proj2 (check_progress_errors (an_evolution (lit "AB") 2 [] [1 # 2] []) O));
      [discriminate | reflexivity].
Defined.

Lemma generate_fitness_edges_witness :
  generate_fitness (an_evolution (lit "AB") 2 [] [1] []) O
  = Ok tt (an_evolution (lit "AB") 2 [] [] []) O
  /\ generate_fitness (an_evolution [] 2 [lit "AB"] [1] []) O
     = Raise ZeroDivisionError (an_evolution [] 2 [lit "AB"] [] []) O
  /\ generate_fitness (an_evolution (lit "AB") 2 [lit "AA"; lit "B"; lit "AB"] [] []) O
     = Raise IndexError
         (an_evolution (lit "AB") 2 [lit "AA"; lit "B"; lit "AB"] [1 # 2] []) O.
Proof.
  split; [|split].
  - apply (proj1 (generate_fitness_edges (an_evolution (lit "AB") 2 [] [1] []) O)).
    reflexivity.
  - apply (proj1 (proj2 (generate_fitness_edges
                           (an_evolution [] 2 [lit "AB"] [1] []) O)));
      [reflexivity | discriminate].
  - apply (proj2 (proj2 (generate_fitness_edges
                           (an_evolution (lit "AB") 2 [lit "AA"; lit "B"; lit "AB"]
                              [] []) O))
             [lit "AA"] (lit "B") [lit "AB"]).
    + reflexivity.
    + repeat constructor.
    + cbn. lia.
Defined.

Lemma scores_as_doubles_witness :
  (fitness_of (lit "AB") (lit "AA") < fitness_of (lit "AB") (lit "AB")
   <-> to_double (fitness_of (lit "AB") (lit "AA"))
       < to_double (fitness_of (lit "AB") (lit "AB")))
  /\ (fitness_of (lit "AB") (lit "AB") == 1
      <-> to_double (fitness_of (lit "AB") (lit "AB")) == 1).
Proof.
  destruct (scores_as_doubles (lit "AB") (lit "AA") (lit "AB")) as (H1 & _ & _).
  - discriminate.
  - reflexivity.
  - destruct (scores_as_doubles (lit "AB") (lit "AB") (lit "AB")) as (_ & _ & H3).
    + discriminate.
    + reflexivity.
    + split; [exact H1 | exact H3].
Defined.

Lemma mating_pool_members_witness :
  let self := an_evolution (lit "AB") 2 [lit "AA"; lit "BA"] [1 # 2; 0] [] in
  In (lit "BA") (repeat (lit "AA") 50)
  <-> exists i f,
        nth_error (population self) i = Some (lit "BA")
        /\ nth_error (fitness self) i = Some f
        /\ (1 <= rint (float_mul (to_double f) 100))%Z.
Proof.
  intros self.
  exact (proj1 (mating_pool_members self O
                  (set_mating_pool (repeat (lit "AA") 50) self) O
                  eq_refl eq_refl) (lit "BA")).
Defined.


Lemma babies_at_least_as_fit_witness :
  let self := an_evolution (lit "AB") 2 [] [] [lit "AA"; lit "BB"] in
  exists babyA babyB,
    reproduction_pair (tape []) self O
    = Ok tt (set_population (population self ++ [babyA; babyB]) self) 2%nat
    /\ fitness_of (lit "AB") babyA == fitness_of (lit "AB") babyB
    /\ fitness_of (lit "AB") (lit "AA") <= fitness_of (lit "AB") babyA
    /\ fitness_of (lit "AB") (lit "BB") <= fitness_of (lit "AB") babyA.
Proof.
  intros self.
  destruct (babies_at_least_as_fit (tape []) self O (lit "AA") (lit "BB")
              eq_refl eq_refl eq_refl eq_refl)
    as (babyA & babyB & E & Heq & HA & HB & _).
  exists babyA, babyB. auto.
Defined.

Lemma mutation_invalid_rate_witness :
  let self := an_evolution (lit "AB") 2 [lit "AA"; lit "BB"] [] [] in
  mutation (tape []) 2 self O = Raise ValueError self O
  /\ mutation (tape []) 2 (an_evolution (lit "AB") 2 [[]; []] [] []) O
     = Ok tt (an_evolution (lit "AB") 2 [[]; []] [] []) O.
Proof.
  intros self. split.
  - apply (proj1 (mutation_invalid_rate (tape []) 2 self O)).
    + right. unfold Qlt. cbn. lia.
    + discriminate.
  - apply (proj2 (mutation_invalid_rate (tape []) 2
                    (an_evolution (lit "AB") 2 [[]; []] [] []) O)).
    reflexivity.
Defined.

Lemma mutation_effect_witness :
  let self := an_evolution (lit "AB") 2 [lit "AA"; lit "BB"] [] [] in
  exists self' pos', mutation (tape []) (1 # 100) self O = Ok tt self' pos'.
Proof.
  intros self.
  apply (proj2 (proj2 (mutation_effect (tape []) (1 # 100) self O))).
  - unfold Qle. cbn. lia.
  - unfold Qle. cbn. lia.
  - discriminate.
Defined.

Lemma single_character_target_witness :
  exists self pos',
    __init__ (tape []) (lit "X") 4 O = Ok tt self pos'
    /\ population self = [lit "X"; lit "X"; lit "X"; lit "X"]
    /\ target_acquired self = true
    /\ target_population self = Some (lit "X").
Proof.
  destruct (single_character_target (tape []) "X"%char 1 4 O ltac:(lia) ltac:(lia))
    as (self & pos' & E & Hp & Ha & Ht & _).
  exists self, pos'. auto.
Defined.

Lemma new_generation_size_one_witness :
  let self := an_evolution (lit "A") 1 [lit "A"] [1] (repeat (lit "A") 100) in
  new_generation (tape []) (1 # 100) self O
  = Raise ValueError (set_fitness [] (set_population [] self)) O.
Proof.
  intros self.
  apply (new_generation_size_one (tape []) (1 # 100) self O). cbn. lia.
Defined.

Lemma constructed_object_witness :
  exists self pos',
    __init__ (tape [0; 1; 0; 0]%N) (lit "AB") 2 O = Ok tt self pos'
    /\ generation self = 1%Z
    /\ length (population self) = 2%nat
    /\ in_step (lit "AB") self
    /\ (target_acquired self = true <-> In (lit "AB") (population self)).
Proof.
  assert (H : { r : Evolution * nat
              | __init__ (tape [0; 1; 0; 0]%N) (lit "AB") 2 O
                = Ok tt (fst r) (snd r) })
    by (eexists (_, _); vm_compute; reflexivity).
  destruct H as [[self pos'] E]. cbn [fst snd] in E.
  destruct (constructed_object (tape [0; 1; 0; 0]%N) (lit "AB") 2 O self pos'
              ltac:(discriminate) E) as (_ & _ & _ & Hg & Hl & Hin & Hiff).
  exists self, pos'. auto.
Defined.

Lemma reachable_object_in_step_witness :
  let rs := tape [0; 1; 0; 0; 0; 0; 2 ^ 52; 2 ^ 52; 2 ^ 52; 2 ^ 52]%N in
  exists self,
    reachable rs (lit "AB") 2 self
    /\ generation self = 2%Z
    /\ in_step (lit "AB") self.
Proof.
  intros rs.
  assert (Hreach : { self | reachable rs (lit "AB") 2 self /\ generation self = 2%Z }).
  { eexists. split.
    - eapply reach_step with (pos := 4%nat) (mutation_rate := 1 # 100).
      + eapply reach_init with (pos := 0%nat). vm_compute. reflexivity.
      + vm_compute. reflexivity.
    - reflexivity. }
  destruct Hreach as [self [Hreach Hgen]].
  exists self. split; [exact Hreach|]. split; [exact Hgen|].
  exact (proj1 (reachable_object_in_step rs (lit "AB") 2 self
                  ltac:(discriminate) Hreach)).
Defined.

End George.
